(** * image2table-web: the table builder of [src/index.ts]

    A shallow embedding of [processOcrData] (the column lookup, the
    line-to-row loop, confidence marking and the low-confidence box list)
    and of the text rendering loop of [AppRequest.start].

    Numbers.  A JavaScript [number] is modelled by a rational [Q]: [<] is
    [Qlt], [Math.min] is [Qmin] and [/] is [Qdiv].  Rounding, [NaN] and the
    infinities of IEEE doubles are outside the model, so [scale] is meant to
    be non-zero wherever the value of a quotient matters.  Column indices
    are integers ([Z]); [number | null] is [option Z].

    Strings.  A JavaScript string is modelled by [string], one [ascii] per
    code unit; a template literal is [append]. *)

From Stdlib Require Import List Sorted Bool Arith ZArith QArith Qminmax Lia Lqa.
From Stdlib Require Import Ascii String.
Import ListNotations.

Local Open Scope string_scope.
Local Open Scope list_scope.
Local Open Scope Q_scope.

(** ** Numbers *)

(** [a < b] on numbers, as a boolean. *)
Definition Qltb (a b : Q) : bool := negb (Qle_bool b a).

(** [Math.min(a, b)]. *)
Definition Math_min (a b : Q) : Q := Qmin a b.

(** [a === b] on [number | null] column indices. *)
Definition column_eqb (a b : option Z) : bool :=
  match a, b with
  | None, None => true
  | Some i, Some j => Z.eqb i j
  | _, _ => false
  end.

(** ** Data model (tesseract.js [Bbox], [Word], [Line], [Symbol], [Page]) *)

Record Bbox : Type := mkBbox { x0 : Q; y0 : Q; x1 : Q; y1 : Q }.

Record Word : Type := mkWord { text : string; confidence : Q; bbox : Bbox }.

Record Line : Type := mkLine { words : list Word }.

Record Symbol : Type := mkSymbol { symbol_bbox : Bbox }.

Record Page : Type := mkPage { symbols : list Symbol; lines : list Line }.

(** [type Row = string[]], [type Table = Row[]]. *)
Definition Row : Type := list string.
Definition Table : Type := list Row.

Record ProcessingOptions : Type := mkProcessingOptions {
  scale : Q;
  delimiter : string;
  columnThreshold : Q;
  confidenceThreshold : Q;
  lowConfidenceMarker : string
}.

Record OcrProcessingResult : Type := mkOcrProcessingResult {
  table : Table;
  lowConfidenceBoxes : list Bbox
}.

(** [DEFAULTS] of [index.ts]. *)
Definition DEFAULTS : ProcessingOptions :=
  {| scale := 3;
     delimiter := String (ascii_of_nat 9) "";
     columnThreshold := 5;
     confidenceThreshold := 90;
     lowConfidenceMarker := " (?)" |}.

(** ** Column ranges ([./intrange], [./intrangeset]) *)

(** [IntRange]: [{ start, end }]; [end] is a keyword here, hence [end_]. *)
Record IntRange : Type := mkIntRange { start : Q; end_ : Q }.

(** What [index.ts] uses of the class [IntRangeSet]: the constructor
    [new IntRangeSet(ranges, threshold)] and the method [getIndex(point)],
    of type [number | null]. *)
Record IntRangeSetClass : Type := mkIntRangeSetClass {
  IntRangeSet_t : Type;
  IntRangeSet_new : list IntRange -> Q -> IntRangeSet_t;
  IntRangeSet_getIndex : IntRangeSet_t -> Q -> option Z
}.

Module IntRangeSet.

(** Modelled from the spec: the stable sort of the Intervals by [start]
    ascending that opens the construction of the Cluster Set; the module
    [./intrangeset] is not among the sources. *)
Fixpoint insertByStart (r : IntRange) (rs : list IntRange) : list IntRange :=
  match rs with
  | [] => [r]
  | h :: t =>
      if Qle_bool (start r) (start h) then r :: h :: t
      else h :: insertByStart r t
  end.

(** Modelled from the spec: sort by [start], ties in original order;
    [./intrangeset] is not among the sources. *)
Definition sortByStart (rs : list IntRange) : list IntRange :=
  fold_right insertByStart [] rs.

(** Modelled from the spec: the left-to-right scan with the running
    cluster [[curStart, curEnd]]: an Interval with
    [start - curEnd <= threshold] extends the running cluster to
    [max curEnd end], any other closes it and starts a new one; the last
    running cluster is closed at the end.  [./intrangeset] is not among
    the sources. *)
Fixpoint mergeFrom (threshold curStart curEnd : Q) (rest : list IntRange)
  : list IntRange :=
  match rest with
  | [] => [mkIntRange curStart curEnd]
  | r :: rest' =>
      if Qle_bool (start r - curEnd) threshold
      then mergeFrom threshold curStart (Qmax curEnd (end_ r)) rest'
      else mkIntRange curStart curEnd
             :: mergeFrom threshold (start r) (end_ r) rest'
  end.

(** Modelled from the spec: the Cluster Set, its clusters in index order;
    the class [IntRangeSet] of [./intrangeset] is not among the sources. *)
Record t : Type := mk { clusters : list IntRange }.

(** Modelled from the spec: construction of the Cluster Set from the
    Intervals and the merge threshold ([new IntRangeSet(ranges,
    threshold)]); [./intrangeset] is not among the sources. *)
Definition make (ranges : list IntRange) (threshold : Q) : t :=
  match sortByStart ranges with
  | [] => mk []
  | r :: rest => mk (mergeFrom threshold (start r) (end_ r) rest)
  end.

(** Modelled from the spec: the lookup over the sorted clusters, scanned
    from index [i].  A point up to the end of the cluster at hand belongs
    to it (so does a point before the first cluster); a point strictly
    between two clusters goes to the one whose boundary is nearer (the
    spec leaves a tie open: the left one is taken); a point after the last
    cluster goes to the last.  [./intrangeset] is not among the sources. *)
Fixpoint indexOfFrom (i : Z) (cs : list IntRange) (point : Q) : Z :=
  match cs with
  | [] => i
  | c :: rest =>
      match rest with
      | [] => i
      | c' :: _ =>
          if Qle_bool point (end_ c) then i
          else if Qltb point (start c')
               then (if Qle_bool (point - end_ c) (start c' - point)
                     then i else (i + 1)%Z)
               else indexOfFrom (i + 1)%Z rest point
      end
  end.

(** Modelled from the spec: [indexOf(point)]; with no cluster at all every
    lookup is the single implicit column 0.  [./intrangeset] is not among
    the sources. *)
Definition indexOf (s : t) (point : Q) : Z :=
  indexOfFrom 0%Z (clusters s) point.

(** Modelled from the spec: [getIndex], the name under which [index.ts]
    calls the lookup and whose result it tests against [null]; by the spec
    the lookup has no "not found" outcome.  [./intrangeset] is not among
    the sources. *)
Definition getIndex (s : t) (point : Q) : option Z :=
  Some (indexOf s point).

(** Modelled from the spec: the class as [index.ts] imports it, made of
    the construction and the lookup above; [./intrangeset] is not among
    the sources. *)
Definition class : IntRangeSetClass :=
  {| IntRangeSet_t := t;
     IntRangeSet_new := make;
     IntRangeSet_getIndex := getIndex |}.

End IntRangeSet.

(** ** [processOcrData] *)

(** The object pushed on [lowConfidenceBoxes]: each coordinate over [scale]. *)
Definition unscaleBbox (b : Bbox) (scale : Q) : Bbox :=
  {| x0 := x0 b / scale;
     y0 := y0 b / scale;
     x1 := x1 b / scale;
     y1 := y1 b / scale |}.

(** The loop-local variables of one line. *)
Record RowState : Type := mkRowState {
  row : Row;
  cellContents : option string;
  cellConfidence : Q;
  currentColumn : option Z
}.

(** The values the variables get at the top of the line loop's body. *)
Definition initialRowState : RowState :=
  {| row := []; cellContents := None; cellConfidence := 100;
     currentColumn := None |}.

(** [if (cellConfidence < confidenceThreshold) cellContents += marker]. *)
Definition markCell (opts : ProcessingOptions) (contents : string)
  (conf : Q) : string :=
  if Qltb conf (confidenceThreshold opts)
  then (contents ++ lowConfidenceMarker opts)%string
  else contents.

(** [if (cellContents !== null) { ...mark...; row.push(cellContents) }]. *)
Definition pushOpenCell (opts : ProcessingOptions) (st : RowState) : Row :=
  match cellContents st with
  | Some contents => row st ++ [markCell opts contents (cellConfidence st)]
  | None => row st
  end.

(** [for (k = ...; k > 0; k -= 1) row.push('')], run [k] times. *)
Fixpoint pushBlanks (k : nat) (r : Row) : Row :=
  match k with
  | O => r
  | S k' => pushBlanks k' (r ++ [""])
  end.

(** The body of the word loop, on the box list and the line's variables. *)
Definition wordStep (getIndex : Q -> option Z) (opts : ProcessingOptions)
  (acc : list Bbox * RowState) (word : Word) : list Bbox * RowState :=
  let (boxes, st) := acc in
  let boxes' :=
    if Qltb (confidence word) (confidenceThreshold opts)
    then boxes ++ [unscaleBbox (bbox word) (scale opts)]
    else boxes in
  let thisWordColumn := getIndex (x0 (bbox word)) in
  if column_eqb thisWordColumn (currentColumn st) then
    (boxes',
     {| row := row st;
        cellContents :=
          Some (match cellContents st with
                | None => text word
                | Some contents => (contents ++ " " ++ text word)%string
                end);
        cellConfidence := Math_min (cellConfidence st) (confidence word);
        currentColumn := currentColumn st |})
  else
    let row1 := pushOpenCell opts st in
    let currentColumn0 :=
      match currentColumn st with None => 0%Z | Some c => c end in
    let row2 :=
      match thisWordColumn with
      | Some c => pushBlanks (Z.to_nat (c - currentColumn0 - 1)) row1
      | None => row1
      end in
    (boxes',
     {| row := row2;
        cellContents := Some (text word);
        cellConfidence := confidence word;
        currentColumn := thisWordColumn |}).

(** The word loop of one line, from the state [acc]. *)
Definition wordLoop (getIndex : Q -> option Z) (opts : ProcessingOptions)
  (acc : list Bbox * RowState) (ws : list Word) : list Bbox * RowState :=
  fold_left (wordStep getIndex opts) ws acc.

(** The body of the line loop, on [table] and [lowConfidenceBoxes]. *)
Definition lineStep (getIndex : Q -> option Z) (opts : ProcessingOptions)
  (acc : Table * list Bbox) (line : Line) : Table * list Bbox :=
  let (tbl, boxes) := acc in
  let (boxes', st) :=
    wordLoop getIndex opts (boxes, initialRowState) (words line) in
  (tbl ++ [pushOpenCell opts st], boxes').

(** The line loop, for a given column lookup. *)
Definition buildTable (getIndex : Q -> option Z) (opts : ProcessingOptions)
  (ls : list Line) : OcrProcessingResult :=
  let (tbl, boxes) := fold_left (lineStep getIndex opts) ls ([], []) in
  {| table := tbl; lowConfidenceBoxes := boxes |}.

(** [columnRanges]: one range per symbol. *)
Definition columnRanges (page : Page) : list IntRange :=
  map (fun symbol =>
         mkIntRange (x0 (symbol_bbox symbol)) (x1 (symbol_bbox symbol)))
      (symbols page).

(** [columnRangeSet]. *)
Definition columnRangeSet (C : IntRangeSetClass) (page : Page)
  (opts : ProcessingOptions) : IntRangeSet_t C :=
  IntRangeSet_new C (columnRanges page) (columnThreshold opts * scale opts).

(** [processOcrData], over the imported class [IntRangeSet]. *)
Definition processOcrData (C : IntRangeSetClass) (page : Page)
  (opts : ProcessingOptions) : OcrProcessingResult :=
  buildTable (IntRangeSet_getIndex C (columnRangeSet C page opts)) opts
             (lines page).

(** ** Text rendering ([AppRequest.start]) *)

(** [text.slice(0, -1)]: the text without its last code unit. *)
Fixpoint slice_0_m1 (s : string) : string :=
  match s with
  | EmptyString => EmptyString
  | String c rest =>
      match rest with
      | EmptyString => EmptyString
      | String _ _ => String c (slice_0_m1 rest)
      end
  end.

(** The body of the row loop of the rendering. *)
Definition renderRow (delim : string) (txt : string) (r : Row) : string :=
  let txt1 := fold_left (fun t cell => (t ++ cell ++ delim)%string) r txt in
  let txt2 := if (1 <=? List.length r)%nat then slice_0_m1 txt1 else txt1 in
  (txt2 ++ String (ascii_of_nat 10) "")%string.

(** The value assigned to the textarea. *)
Definition renderText (delim : string) (tbl : Table) : string :=
  fold_left (renderRow delim) tbl "".

(** ** Views of the input and of the loop used by the statements *)

(** The row the line loop pushes for a line with the words [ws]. *)
Definition lineRow (getIndex : Q -> option Z) (opts : ProcessingOptions)
  (ws : list Word) : Row :=
  pushOpenCell opts (snd (wordLoop getIndex opts ([], initialRowState) ws)).

(** The words of a page in reading order: line by line, word by word. *)
Definition pageWords (ls : list Line) : list Word :=
  flat_map words ls.

(** [word.confidence < confidenceThreshold]. *)
Definition isLowConfidence (opts : ProcessingOptions) (w : Word) : bool :=
  Qltb (confidence w) (confidenceThreshold opts).

(** The low-confidence words of a page, in reading order. *)
Definition lowConfidenceWords (opts : ProcessingOptions) (ls : list Line)
  : list Word :=
  filter (isLowConfidence opts) (pageWords ls).

(** The texts of the words, joined by one space. *)
Definition joinTexts (ws : list Word) : string :=
  String.concat " " (map text ws).

(** The least confidence among the words ([100], the initial value of
    [cellConfidence], when there is none). *)
Fixpoint minConfidence (ws : list Word) : Q :=
  match ws with
  | [] => 100
  | w :: rest =>
      match rest with
      | [] => confidence w
      | _ :: _ => Qmin (confidence w) (minConfidence rest)
      end
  end.

(** *** Which words end up in which cell

    The word loop again, keeping the words instead of their texts: a cell of
    a row is either a blank pushed for a skipped column or the words merged
    into it. *)

Inductive Cell : Type :=
| Blank
| Merged (ws : list Word).

Record GroupState : Type := mkGroupState {
  cells : list Cell;
  openWords : list Word;
  groupColumn : option Z
}.

Definition initialGroupState : GroupState :=
  {| cells := []; openWords := []; groupColumn := None |}.

Definition closeGroup (g : GroupState) : list Cell :=
  match openWords g with
  | [] => cells g
  | _ :: _ => cells g ++ [Merged (openWords g)]
  end.

Definition groupStep (getIndex : Q -> option Z) (g : GroupState)
  (word : Word) : GroupState :=
  let thisWordColumn := getIndex (x0 (bbox word)) in
  if column_eqb thisWordColumn (groupColumn g) then
    {| cells := cells g;
       openWords := openWords g ++ [word];
       groupColumn := groupColumn g |}
  else
    let column0 := match groupColumn g with None => 0%Z | Some c => c end in
    {| cells :=
         closeGroup g ++
         match thisWordColumn with
         | Some c => repeat Blank (Z.to_nat (c - column0 - 1))
         | None => []
         end;
       openWords := [word];
       groupColumn := thisWordColumn |}.

(** The cells of a line, each with the words merged into it. *)
Definition lineCells (getIndex : Q -> option Z) (ws : list Word)
  : list Cell :=
  closeGroup (fold_left (groupStep getIndex) ws initialGroupState).

(** The words of the cells, in order. *)
Definition cellWords (c : Cell) : list Word :=
  match c with
  | Blank => []
  | Merged ws => ws
  end.

(** The text of a cell: a blank is the empty string; merged words are their
    texts joined by a space, followed by the marker exactly when their least
    confidence is below the threshold. *)
Definition renderCell (opts : ProcessingOptions) (c : Cell) : string :=
  match c with
  | Blank => ""
  | Merged ws =>
      if Qltb (minConfidence ws) (confidenceThreshold opts)
      then (joinTexts ws ++ lowConfidenceMarker opts)%string
      else joinTexts ws
  end.

(** The text of a cell without any marker. *)
Definition plainCell (c : Cell) : string :=
  match c with
  | Blank => ""
  | Merged ws => joinTexts ws
  end.

(** The text of a cell with every merged cell marked. *)
Definition markedCell (opts : ProcessingOptions) (c : Cell) : string :=
  match c with
  | Blank => ""
  | Merged ws => (joinTexts ws ++ lowConfidenceMarker opts)%string
  end.

(** What the loop's variables hold, in terms of the words seen so far. *)
Definition erases (opts : ProcessingOptions) (st : RowState)
  (g : GroupState) : Prop :=
  row st = map (renderCell opts) (cells g) /\
  currentColumn st = groupColumn g /\
  (openWords g = [] ->
   cellContents st = None /\ cellConfidence st == 100 /\
   groupColumn g = None) /\
  (openWords g <> [] ->
   cellContents st = Some (joinTexts (openWords g)) /\
   cellConfidence st == minConfidence (openWords g)).

(** No closed cell is a merge of no word. *)
Definition groupsOf (g : GroupState) : Prop :=
  Forall (fun c => c <> Merged []) (cells g).

(** The words merged into a cell were all looked up to the same column. *)
Definition sameColumn (getIndex : Q -> option Z) (c : Cell) : Prop :=
  match c with
  | Blank => True
  | Merged ws =>
      exists col, Forall (fun w => getIndex (x0 (bbox w)) = col) ws
  end.

(** The text the rendering is compared with: the cells of each row joined
    by the delimiter, each row followed by a line break. *)
Definition joinedRows (delim : string) (tbl : Table) : string :=
  fold_right
    (fun r rest =>
       (String.concat delim r ++ String (ascii_of_nat 10) "" ++ rest)%string)
    "" tbl.

(** Order of ranges by their starts, and membership of a point. *)
Definition startsLe (a b : IntRange) : Prop := start a <= start b.

Definition covers (c : IntRange) (point : Q) : Prop :=
  start c <= point /\ point <= end_ c.

(** ** The row as a grid

    What a row is when the columns of a line's words never go back: one
    slot per column, holding the words looked up to that column. *)

(** The words of the line that were looked up to column [c]. *)
Definition wordsInColumn (getIndex : Q -> option Z) (ws : list Word)
  (c : Z) : list Word :=
  filter (fun w => column_eqb (getIndex (x0 (bbox w))) (Some c)) ws.

(** The slot of column [c]: blank when the line has no word there. *)
Definition gridCell (getIndex : Q -> option Z) (ws : list Word) (c : Z)
  : Cell :=
  match wordsInColumn getIndex ws c with
  | [] => Blank
  | _ :: _ => Merged (wordsInColumn getIndex ws c)
  end.

(** The [n] columns from [lo] on. *)
Definition columnsFrom (lo : Z) (n : nat) : list Z :=
  map (fun i => (lo + Z.of_nat i)%Z) (seq 0 n).

(** What the group loop holds after the words [p], the last of them in
    column [kl], for a line whose columns start at [lo] and never go back. *)
Definition gridInv (getIndex : Q -> option Z) (lo : Z) (p : list Word)
  (kl : Z) (g : GroupState) : Prop :=
  groupColumn g = Some kl /\
  openWords g = wordsInColumn getIndex p kl /\
  wordsInColumn getIndex p kl <> [] /\
  cells g = map (gridCell getIndex p)
                (columnsFrom lo (Z.to_nat (kl - lo))) /\
  Forall (fun a => exists k, getIndex (x0 (bbox a)) = Some k /\ (k <= kl)%Z)
         p /\
  (lo <= kl)%Z.

(** ** A sample page

    Three columns of symbols at scale 3 and three lines: two confident or
    doubtful words in the first column followed by one in the third, a lone
    word in the second column, and a line without words. *)

Definition sampleBbox (left right : Q) : Bbox :=
  {| x0 := left; y0 := 12; x1 := right; y1 := 48 |}.

Definition sampleSymbols : list Symbol :=
  [ mkSymbol (sampleBbox 0 30); mkSymbol (sampleBbox 33 60);
    mkSymbol (sampleBbox 300 330);
    mkSymbol (sampleBbox 600 630); mkSymbol (sampleBbox 640 660) ].

Definition wordAb : Word := mkWord "ab" 95 (sampleBbox 0 30).
Definition wordCd : Word := mkWord "cd" 50 (sampleBbox 33 60).
Definition wordEf : Word := mkWord "ef" 92 (sampleBbox 600 660).
Definition wordGh : Word := mkWord "gh" 80 (sampleBbox 300 330).

Definition sampleLines : list Line :=
  [ mkLine [wordAb; wordCd; wordEf]; mkLine [wordGh]; mkLine [] ].

Definition samplePage : Page := mkPage sampleSymbols sampleLines.

(** A page without symbols whose only line has one doubtful word. *)
Definition bareSymbolsPage : Page := mkPage [] [mkLine [wordCd]].

(** A lookup that puts the words of the sample page in columns 0, 1, 2. *)
Definition sampleLookup (point : Q) : option Z :=
  if Qltb point 300 then Some 0%Z
  else if Qltb point 600 then Some 1%Z
  else Some 2%Z.

(** ** Options and cells used by the further properties *)

(** The options with another confidence threshold. *)
Definition withThreshold (opts : ProcessingOptions) (t : Q)
  : ProcessingOptions :=
  {| scale := scale opts;
     delimiter := delimiter opts;
     columnThreshold := columnThreshold opts;
     confidenceThreshold := t;
     lowConfidenceMarker := lowConfidenceMarker opts |}.

(** The text of a cell, marked when one of its words is of low confidence,
    that is when one of its words has its box in [lowConfidenceBoxes]. *)
Definition renderCellByWords (opts : ProcessingOptions) (c : Cell) : string :=
  match c with
  | Blank => ""
  | Merged ws =>
      if existsb (isLowConfidence opts) ws
      then (joinTexts ws ++ lowConfidenceMarker opts)%string
      else joinTexts ws
  end.

(** The default options with an empty marker. *)
Definition unmarkedDefaults : ProcessingOptions :=
  {| scale := 3;
     delimiter := String (ascii_of_nat 9) "";
     columnThreshold := 5;
     confidenceThreshold := 90;
     lowConfidenceMarker := "" |}.

(** The sample symbols with one line of two confident words. *)
Definition confidentPage : Page :=
  mkPage sampleSymbols [mkLine [wordAb; wordEf]].

(** ** The rest of [AppRequest.start] and [markBoxes] *)

(** The text a row contributes for any delimiter: nothing for an empty row;
    otherwise the cells joined by the delimiter, then what [slice(0, -1)]
    leaves of the delimiter appended after the last cell. *)
Definition rowText (delim : string) (r : Row) : string :=
  match r with
  | [] => ""
  | _ :: _ => (String.concat delim r ++ slice_0_m1 delim)%string
  end.

(** The rows' texts, each followed by a line break. *)
Definition joinedRowTexts (delim : string) (tbl : Table) : string :=
  fold_right
    (fun r rest =>
       (rowText delim r ++ String (ascii_of_nat 10) "" ++ rest)%string)
    "" tbl.

(** The number of line breaks of a text. *)
Fixpoint countBreaks (s : string) : nat :=
  match s with
  | EmptyString => 0
  | String c rest =>
      (if Ascii.eqb c (ascii_of_nat 10) then 1 else 0) + countBreaks rest
  end.

(** [lengthOfLongestWord] at the end of the row loop of [AppRequest.start]:
    from 1, [Math.max(cell.length, lengthOfLongestWord)] cell after cell. *)
Definition lengthOfLongestWord (tbl : Table) : nat :=
  fold_left
    (fun longest r =>
       fold_left (fun longest' cell => Nat.max (String.length cell) longest')
                 r longest)
    tbl 1%nat.

(** The text [AppRequest.start] puts in the textarea for the recognized
    page [data]. *)
Definition startText (C : IntRangeSetClass) (data : Page)
  (opts : ProcessingOptions) : string :=
  renderText (delimiter opts) (table (processOcrData C data opts)).

(** The arguments of one [context.strokeRect(x, y, width, height)]. *)
Record StrokeRect : Type := mkStrokeRect {
  rect_x : Q;
  rect_y : Q;
  rect_width : Q;
  rect_height : Q
}.

(** The call the box loop of [markBoxes] makes for [box]; the differences
    and sums are exact here and rounded in the code. *)
Definition strokeRectOf (box : Bbox) : StrokeRect :=
  let x := x0 box in
  let y := y0 box in
  let width := x1 box - x in
  let height := y1 box - y in
  {| rect_x := x - 2; rect_y := y - 2;
     rect_width := width + 4; rect_height := height + 4 |}.

(** The [strokeRect] calls of [markBoxes], in the order they are made. *)
Definition markBoxes_strokes (boxes : list Bbox) : list StrokeRect :=
  fold_left (fun calls box => calls ++ [strokeRectOf box]) boxes [].

(** The [strokeRect] calls [AppRequest.start] ends with, through
    [markBoxes(image, lowConfidenceBoxes)]. *)
Definition startStrokes (C : IntRangeSetClass) (data : Page)
  (opts : ProcessingOptions) : list StrokeRect :=
  markBoxes_strokes (lowConfidenceBoxes (processOcrData C data opts)).

(** [btnTab.checked ? '\t' : ','] of [getProcessingOptions]. *)
Definition delimiterChoice (btnTabChecked : bool) : string :=
  if btnTabChecked then String (ascii_of_nat 9) "" else ",".

(** * Properties *)

(** ** Numbers and strings *)

Lemma Qltb_lt (a b : Q) : Qltb a b = true <-> a < b.
Proof.
  unfold Qltb. rewrite negb_true_iff. split.
  - intro H. apply Qnot_le_lt. intro Hle.
    apply Qle_bool_iff in Hle. congruence.
  - intro H. destruct (Qle_bool b a) eqn:E; [|reflexivity].
    apply Qle_bool_iff in E. exfalso. exact (Qlt_not_le _ _ H E).
Qed.

Lemma Qltb_ge (a b : Q) : Qltb a b = false <-> b <= a.
Proof.
  unfold Qltb. rewrite negb_false_iff. apply Qle_bool_iff.
Qed.

Lemma column_eqb_eq (a b : option Z) : column_eqb a b = true <-> a = b.
Proof.
  destruct a as [i|], b as [j|]; simpl; try (split; congruence).
  rewrite Z.eqb_eq. split; congruence.
Qed.

Lemma append_assoc (a b c : string) :
  ((a ++ b) ++ c = a ++ (b ++ c))%string.
Proof.
  induction a as [|ch a IH]; simpl; [reflexivity | now rewrite IH].
Qed.

Lemma append_empty_r (a : string) : (a ++ "" = a)%string.
Proof.
  induction a as [|ch a IH]; simpl; [reflexivity | now rewrite IH].
Qed.

(** ** The two accumulators of the loops are independent *)

Section Loops.

Variable getIndex : Q -> option Z.
Variable opts : ProcessingOptions.

Lemma wordStep_boxes (boxes : list Bbox) (st : RowState) (w : Word) :
  fst (wordStep getIndex opts (boxes, st) w) =
  boxes ++ map (fun w => unscaleBbox (bbox w) (scale opts))
               (filter (isLowConfidence opts) [w]).
Proof.
  unfold wordStep, isLowConfidence. simpl.
  destruct (Qltb (confidence w) (confidenceThreshold opts));
    destruct (column_eqb _ _); simpl; now rewrite ?app_nil_r.
Qed.

Lemma wordStep_state (b1 b2 : list Bbox) (st : RowState) (w : Word) :
  snd (wordStep getIndex opts (b1, st) w) =
  snd (wordStep getIndex opts (b2, st) w).
Proof.
  unfold wordStep. destruct (column_eqb _ _); reflexivity.
Qed.

Lemma wordLoop_boxes (ws : list Word) (boxes : list Bbox) (st : RowState) :
  fst (wordLoop getIndex opts (boxes, st) ws) =
  boxes ++ map (fun w => unscaleBbox (bbox w) (scale opts))
               (filter (isLowConfidence opts) ws).
Proof.
  unfold wordLoop. revert boxes st.
  induction ws as [|w ws IH]; intros boxes st.
  - simpl. now rewrite app_nil_r.
  - change (w :: ws) with ([w] ++ ws).
    rewrite filter_app, map_app, app_assoc, <- (wordStep_boxes boxes st w).
    rewrite fold_left_app. cbn [fold_left].
    destruct (wordStep getIndex opts (boxes, st) w) as [boxes' st'].
    apply IH.
Qed.

Lemma wordLoop_state (ws : list Word) (b1 b2 : list Bbox) (st : RowState) :
  snd (wordLoop getIndex opts (b1, st) ws) =
  snd (wordLoop getIndex opts (b2, st) ws).
Proof.
  unfold wordLoop. revert b1 b2 st.
  induction ws as [|w ws IH]; intros b1 b2 st; cbn [fold_left].
  - reflexivity.
  - pose proof (wordStep_state b1 b2 st w) as Hs.
    destruct (wordStep getIndex opts (b1, st) w) as [c1 s1].
    destruct (wordStep getIndex opts (b2, st) w) as [c2 s2].
    simpl in Hs. subst s2. apply IH.
Qed.

Lemma lineStep_eq (tbl : Table) (boxes : list Bbox) (l : Line) :
  lineStep getIndex opts (tbl, boxes) l =
  (tbl ++ [lineRow getIndex opts (words l)],
   boxes ++ map (fun w => unscaleBbox (bbox w) (scale opts))
                (filter (isLowConfidence opts) (words l))).
Proof.
  unfold lineStep, lineRow.
  destruct (wordLoop getIndex opts (boxes, initialRowState) (words l))
    as [boxes' st] eqn:E.
  pose proof (wordLoop_boxes (words l) boxes initialRowState) as Hb.
  pose proof (wordLoop_state (words l) boxes [] initialRowState) as Hs.
  rewrite E in Hb, Hs. simpl in Hb, Hs. now rewrite Hb, <- Hs.
Qed.

Lemma lineLoop_eq (ls : list Line) (tbl : Table) (boxes : list Bbox) :
  fold_left (lineStep getIndex opts) ls (tbl, boxes) =
  (tbl ++ map (fun l => lineRow getIndex opts (words l)) ls,
   boxes ++ map (fun w => unscaleBbox (bbox w) (scale opts))
                (lowConfidenceWords opts ls)).
Proof.
  revert tbl boxes.
  induction ls as [|l ls IH]; intros tbl boxes; cbn [fold_left].
  - unfold lowConfidenceWords. simpl. now rewrite !app_nil_r.
  - rewrite lineStep_eq, IH. unfold lowConfidenceWords, pageWords. simpl.
    rewrite filter_app, map_app, <- !app_assoc. reflexivity.
Qed.

Lemma buildTable_table (ls : list Line) :
  table (buildTable getIndex opts ls) =
  map (fun l => lineRow getIndex opts (words l)) ls.
Proof.
  unfold buildTable. rewrite lineLoop_eq. reflexivity.
Qed.

Lemma buildTable_boxes (ls : list Line) :
  lowConfidenceBoxes (buildTable getIndex opts ls) =
  map (fun w => unscaleBbox (bbox w) (scale opts))
      (lowConfidenceWords opts ls).
Proof.
  unfold buildTable. rewrite lineLoop_eq. reflexivity.
Qed.

End Loops.

(** ** Least confidence and joined text of a growing cell *)

Lemma Qltb_compat (a b t : Q) : a == b -> Qltb a t = Qltb b t.
Proof.
  intro H. unfold Qltb. now rewrite H.
Qed.

Lemma minConfidence_snoc (ws : list Word) (w : Word) :
  ws <> [] ->
  minConfidence (ws ++ [w]) == Qmin (minConfidence ws) (confidence w).
Proof.
  induction ws as [|a ws IH]; intro Hne; [congruence|].
  destruct ws as [|b ws].
  - simpl. reflexivity.
  - change (minConfidence ((a :: b :: ws) ++ [w]))
      with (Qmin (confidence a) (minConfidence ((b :: ws) ++ [w]))).
    change (minConfidence (a :: b :: ws))
      with (Qmin (confidence a) (minConfidence (b :: ws))).
    rewrite IH by discriminate. apply Q.min_assoc.
Qed.

Lemma minConfidence_lt (ws : list Word) (t : Q) :
  ws <> [] ->
  Qltb (minConfidence ws) t =
  existsb (fun w => Qltb (confidence w) t) ws.
Proof.
  induction ws as [|a ws IH]; intro Hne; [congruence|].
  destruct ws as [|b ws].
  - simpl. now rewrite orb_false_r.
  - change (minConfidence (a :: b :: ws))
      with (Qmin (confidence a) (minConfidence (b :: ws))).
    cbn [existsb] in *. rewrite <- IH by discriminate.
    apply eq_true_iff_eq. rewrite orb_true_iff, !Qltb_lt.
    apply Q.min_lt_iff.
Qed.

Lemma joinTexts_snoc (ws : list Word) (w : Word) :
  ws <> [] ->
  joinTexts (ws ++ [w]) = (joinTexts ws ++ " " ++ text w)%string.
Proof.
  unfold joinTexts.
  induction ws as [|a ws IH]; intro Hne; [congruence|].
  destruct ws as [|b ws].
  - reflexivity.
  - change (String.concat " " (map text ((a :: b :: ws) ++ [w])))
      with (text a ++ " " ++
            String.concat " " (map text ((b :: ws) ++ [w])))%string.
    rewrite IH by discriminate.
    change (String.concat " " (map text (a :: b :: ws)))
      with (text a ++ " " ++ String.concat " " (map text (b :: ws)))%string.
    now rewrite !append_assoc.
Qed.

Lemma pushBlanks_repeat (k : nat) (r : Row) :
  pushBlanks k r = r ++ repeat ""%string k.
Proof.
  revert r. induction k as [|k IH]; intro r; simpl.
  - now rewrite app_nil_r.
  - rewrite IH, <- app_assoc. reflexivity.
Qed.

(** ** The row of a line is the rendering of its cells *)

Section Cells.

Variable getIndex : Q -> option Z.
Variable opts : ProcessingOptions.

Lemma erases_initial : erases opts initialRowState initialGroupState.
Proof.
  unfold erases. simpl. repeat split; try reflexivity; congruence.
Qed.

Lemma erases_push (st : RowState) (g : GroupState) :
  erases opts st g ->
  pushOpenCell opts st = map (renderCell opts) (closeGroup g).
Proof.
  intros (Hrow & _ & Hnil & Hcons). unfold pushOpenCell, closeGroup.
  destruct (openWords g) as [|a ws] eqn:E.
  - destruct (Hnil eq_refl) as (-> & _). exact Hrow.
  - destruct Hcons as [-> Hc]; [discriminate|].
    rewrite map_app, Hrow. simpl.
    unfold markCell. now rewrite (Qltb_compat _ _ _ Hc).
Qed.

Lemma erases_step (st : RowState) (g : GroupState) (w : Word) :
  getIndex (x0 (bbox w)) <> None \/ confidence w <= 100 ->
  erases opts st g ->
  erases opts (snd (wordStep getIndex opts ([], st) w))
         (groupStep getIndex g w).
Proof.
  intros Hw He. pose proof (erases_push st g He) as Hpush.
  destruct He as (Hrow & Hcol & Hnil & Hcons).
  unfold wordStep, groupStep. rewrite <- Hcol.
  destruct (column_eqb (getIndex (x0 (bbox w))) (currentColumn st)) eqn:Eq;
    unfold erases; cbn [snd row cellContents cellConfidence currentColumn
                        cells openWords groupColumn].
  - split; [exact Hrow|]. split; [reflexivity|]. split.
    + intro H. apply app_eq_nil in H. destruct H; discriminate.
    + intros _. destruct (openWords g) as [|a ws] eqn:E.
      * destruct (Hnil eq_refl) as (-> & Hc & Hnone).
        split; [reflexivity|].
        apply column_eqb_eq in Eq. rewrite Hcol, Hnone in Eq.
        destruct Hw as [Hw|Hw]; [congruence|].
        unfold Math_min. rewrite Hc. apply Q.min_r. exact Hw.
      * destruct Hcons as [-> Hc]; [discriminate|].
        rewrite joinTexts_snoc by discriminate. split; [reflexivity|].
        unfold Math_min. rewrite Hc.
        symmetry. apply minConfidence_snoc. discriminate.
  - split; [|split; [reflexivity|split]].
    + rewrite map_app, <- Hpush.
      destruct (getIndex (x0 (bbox w))) as [c|].
      * rewrite pushBlanks_repeat, map_repeat. reflexivity.
      * simpl. now rewrite app_nil_r.
    + discriminate.
    + intros _. split; reflexivity.
Qed.

Lemma erases_loop (ws : list Word) (st : RowState) (g : GroupState) :
  Forall (fun w => getIndex (x0 (bbox w)) <> None \/ confidence w <= 100)
         ws ->
  erases opts st g ->
  erases opts (snd (wordLoop getIndex opts ([], st) ws))
         (fold_left (groupStep getIndex) ws g).
Proof.
  unfold wordLoop. revert st g.
  induction ws as [|w ws IH]; intros st g Hws He; cbn [fold_left].
  - exact He.
  - inversion Hws as [|? ? Hw Hws']; subst.
    pose proof (erases_step st g w Hw He) as He'.
    destruct (wordStep getIndex opts ([], st) w) as [b st'] eqn:E.
    simpl in He'.
    pose proof (wordLoop_state getIndex opts ws b [] st') as Hs.
    unfold wordLoop in Hs. rewrite Hs. apply IH; assumption.
Qed.

(** The row of a line is the rendering of its cells, as long as a word
    whose lookup is [null] has a confidence of at most 100. *)
Lemma lineRow_cells (ws : list Word) :
  Forall (fun w => getIndex (x0 (bbox w)) <> None \/ confidence w <= 100)
         ws ->
  lineRow getIndex opts ws = map (renderCell opts) (lineCells getIndex ws).
Proof.
  intro Hws. unfold lineRow, lineCells. apply erases_push.
  apply erases_loop; [exact Hws | exact erases_initial].
Qed.

(** *** The cells partition the words of the line *)

Lemma closeGroup_words (g : GroupState) :
  flat_map cellWords (closeGroup g) =
  flat_map cellWords (cells g) ++ openWords g.
Proof.
  unfold closeGroup. destruct (openWords g) as [|a ws] eqn:E.
  - now rewrite app_nil_r.
  - rewrite flat_map_app. simpl. now rewrite app_nil_r.
Qed.

Lemma flat_map_repeat_Blank (k : nat) :
  flat_map cellWords (repeat Blank k) = [].
Proof.
  induction k as [|k IH]; simpl; [reflexivity | exact IH].
Qed.

Lemma groupStep_words (g : GroupState) (w : Word) :
  flat_map cellWords (closeGroup (groupStep getIndex g w)) =
  flat_map cellWords (closeGroup g) ++ [w].
Proof.
  rewrite !closeGroup_words. unfold groupStep.
  destruct (column_eqb _ _); simpl.
  - now rewrite app_assoc.
  - rewrite flat_map_app, closeGroup_words.
    destruct (getIndex (x0 (bbox w))); simpl;
      now rewrite ?flat_map_repeat_Blank, ?app_nil_r.
Qed.

Lemma groupLoop_words (ws : list Word) (g : GroupState) :
  flat_map cellWords (closeGroup (fold_left (groupStep getIndex) ws g)) =
  flat_map cellWords (closeGroup g) ++ ws.
Proof.
  revert g. induction ws as [|w ws IH]; intro g; cbn [fold_left].
  - now rewrite app_nil_r.
  - rewrite IH, groupStep_words, <- app_assoc. reflexivity.
Qed.

(** Every word of the line is in exactly one cell, in reading order. *)
Lemma lineCells_words (ws : list Word) :
  flat_map cellWords (lineCells getIndex ws) = ws.
Proof.
  unfold lineCells. rewrite groupLoop_words. reflexivity.
Qed.

Lemma closeGroup_nonempty (g : GroupState) :
  groupsOf g -> Forall (fun c => c <> Merged []) (closeGroup g).
Proof.
  unfold groupsOf, closeGroup. intro H.
  destruct (openWords g) as [|a ws] eqn:E; [exact H|].
  apply Forall_app. split; [exact H|].
  constructor; [discriminate | constructor].
Qed.

Lemma groupStep_nonempty (g : GroupState) (w : Word) :
  groupsOf g -> groupsOf (groupStep getIndex g w).
Proof.
  intro H. unfold groupStep.
  destruct (column_eqb _ _); [exact H|].
  unfold groupsOf. simpl. apply Forall_app. split.
  - now apply closeGroup_nonempty.
  - destruct (getIndex (x0 (bbox w))); [|constructor].
    apply Forall_forall. intros c Hc.
    apply repeat_spec in Hc. subst c. discriminate.
Qed.

(** No cell is a merge of no word. *)
Lemma lineCells_nonempty (ws : list Word) :
  Forall (fun c => c <> Merged []) (lineCells getIndex ws).
Proof.
  unfold lineCells. apply closeGroup_nonempty.
  assert (G : forall g, groupsOf g ->
                        groupsOf (fold_left (groupStep getIndex) ws g)).
  { induction ws as [|w ws IH]; intros g Hg; cbn [fold_left].
    - exact Hg.
    - apply IH. now apply groupStep_nonempty. }
  apply G. constructor.
Qed.

Lemma closeGroup_sameColumn (g : GroupState) :
  Forall (sameColumn getIndex) (cells g) ->
  Forall (fun w => getIndex (x0 (bbox w)) = groupColumn g) (openWords g) ->
  Forall (sameColumn getIndex) (closeGroup g).
Proof.
  intros Hc Ho. unfold closeGroup.
  destruct (openWords g) as [|a ws] eqn:E; [exact Hc|].
  apply Forall_app. split; [exact Hc|].
  constructor; [|constructor]. exists (groupColumn g). exact Ho.
Qed.

Lemma groupStep_sameColumn (g : GroupState) (w : Word) :
  Forall (sameColumn getIndex) (cells g) /\
  Forall (fun w => getIndex (x0 (bbox w)) = groupColumn g) (openWords g) ->
  Forall (sameColumn getIndex) (cells (groupStep getIndex g w)) /\
  Forall (fun a => getIndex (x0 (bbox a)) =
                   groupColumn (groupStep getIndex g w))
         (openWords (groupStep getIndex g w)).
Proof.
  intros [Hc Ho]. unfold groupStep.
  destruct (column_eqb (getIndex (x0 (bbox w))) (groupColumn g)) eqn:E;
    cbn [cells openWords groupColumn].
  - apply column_eqb_eq in E. split; [exact Hc|].
    apply Forall_app. split; [exact Ho|]. constructor; [exact E|constructor].
  - split; [|constructor; [reflexivity|constructor]].
    apply Forall_app. split; [now apply closeGroup_sameColumn|].
    destruct (getIndex (x0 (bbox w))); [|constructor].
    apply Forall_forall. intros c Hin.
    apply repeat_spec in Hin. subst c. exact I.
Qed.

(** The words of a cell all have the same lookup. *)
Lemma lineCells_sameColumn (ws : list Word) :
  Forall (sameColumn getIndex) (lineCells getIndex ws).
Proof.
  unfold lineCells.
  assert (G : forall g,
             Forall (sameColumn getIndex) (cells g) /\
             Forall (fun w => getIndex (x0 (bbox w)) = groupColumn g)
                    (openWords g) ->
             Forall (sameColumn getIndex)
                    (closeGroup (fold_left (groupStep getIndex) ws g))).
  { induction ws as [|w ws IH]; intros g Hg; cbn [fold_left].
    - now apply closeGroup_sameColumn.
    - apply IH. now apply groupStep_sameColumn. }
  apply G. split; constructor.
Qed.

End Cells.

(** ** The table and the box list of [processOcrData] *)

Section ProcessOcrData.

Variable C : IntRangeSetClass.
Variable page : Page.
Variable opts : ProcessingOptions.

Lemma processOcrData_table :
  table (processOcrData C page opts) =
  map (fun l =>
         lineRow (IntRangeSet_getIndex C (columnRangeSet C page opts)) opts
                 (words l))
      (lines page).
Proof.
  unfold processOcrData. apply buildTable_table.
Qed.

Lemma processOcrData_boxes :
  lowConfidenceBoxes (processOcrData C page opts) =
  map (fun w => unscaleBbox (bbox w) (scale opts))
      (lowConfidenceWords opts (lines page)).
Proof.
  unfold processOcrData. apply buildTable_boxes.
Qed.

End ProcessOcrData.

(** ** An open cell stays open *)

Lemma wordStep_opens (getIndex : Q -> option Z) (opts : ProcessingOptions)
  (boxes : list Bbox) (st : RowState) (w : Word) :
  cellContents (snd (wordStep getIndex opts (boxes, st) w)) <> None.
Proof.
  unfold wordStep. destruct (column_eqb _ _); simpl; discriminate.
Qed.

Lemma wordLoop_open (getIndex : Q -> option Z) (opts : ProcessingOptions)
  (ws : list Word) (boxes : list Bbox) (st : RowState) :
  cellContents st <> None \/ ws <> [] ->
  cellContents (snd (wordLoop getIndex opts (boxes, st) ws)) <> None.
Proof.
  unfold wordLoop. revert boxes st.
  induction ws as [|w ws IH]; intros boxes st H; cbn [fold_left].
  - destruct H as [H|H]; [exact H | congruence].
  - pose proof (wordStep_opens getIndex opts boxes st w) as Ho.
    destruct (wordStep getIndex opts (boxes, st) w) as [b st'].
    apply IH. left. exact Ho.
Qed.

Lemma pushOpenCell_length (opts : ProcessingOptions) (st : RowState) :
  cellContents st <> None ->
  (1 <= List.length (pushOpenCell opts st))%nat.
Proof.
  unfold pushOpenCell. destruct (cellContents st); [|congruence].
  intros _. rewrite length_app. simpl. lia.
Qed.

(** ** The modelled column range set *)

Section RangeSet.

Import IntRangeSet.

Lemma insertByStart_In (r x : IntRange) (rs : list IntRange) :
  In x (insertByStart r rs) <-> x = r \/ In x rs.
Proof.
  induction rs as [|h t IH]; simpl.
  - intuition congruence.
  - destruct (Qle_bool (start r) (start h)); simpl.
    + intuition congruence.
    + rewrite IH. intuition congruence.
Qed.

Lemma sortByStart_In (x : IntRange) (rs : list IntRange) :
  In x (sortByStart rs) <-> In x rs.
Proof.
  induction rs as [|r rs IH]; simpl; [tauto|].
  rewrite insertByStart_In, IH. intuition congruence.
Qed.

Lemma insertByStart_sorted (r : IntRange) (rs : list IntRange) :
  StronglySorted startsLe rs ->
  StronglySorted startsLe (insertByStart r rs).
Proof.
  induction rs as [|h t IH]; intro Hs; simpl.
  - constructor; constructor.
  - inversion Hs as [|? ? Ht Hh]; subst.
    destruct (Qle_bool (start r) (start h)) eqn:E.
    + apply Qle_bool_iff in E. constructor; [exact Hs|].
      constructor; [exact E|].
      eapply Forall_impl; [|exact Hh].
      intros a Ha. unfold startsLe in *. lra.
    + assert (Hlt : start h <= start r).
      { apply Qlt_le_weak, Qnot_le_lt. intro Hle.
        apply Qle_bool_iff in Hle. congruence. }
      constructor; [now apply IH|].
      apply Forall_forall. intros a Ha.
      apply insertByStart_In in Ha. destruct Ha as [->|Ha].
      * exact Hlt.
      * rewrite Forall_forall in Hh. now apply Hh.
Qed.

Lemma sortByStart_sorted (rs : list IntRange) :
  StronglySorted startsLe (sortByStart rs).
Proof.
  induction rs as [|r rs IH]; simpl.
  - constructor.
  - now apply insertByStart_sorted.
Qed.



(** A lookup among [cs], numbered from [i], lands on one of them. *)
Lemma indexOfFrom_range (cs : list IntRange) (i : Z) (point : Q) :
  cs <> [] ->
  (i <= indexOfFrom i cs point < i + Z.of_nat (List.length cs))%Z.
Proof.
  revert i. induction cs as [|c rest IH]; intros i Hne; [congruence|].
  destruct rest as [|c' rest'].
  - simpl. lia.
  - change (indexOfFrom i (c :: c' :: rest') point)
      with (if Qle_bool point (end_ c) then i
            else if Qltb point (start c')
                 then (if Qle_bool (point - end_ c) (start c' - point)
                       then i else (i + 1)%Z)
                 else indexOfFrom (i + 1)%Z (c' :: rest') point).
    assert (Hr := IH (i + 1)%Z ltac:(discriminate)).
    cbn [List.length] in *.
    destruct (Qle_bool point (end_ c)); [lia|].
    destruct (Qltb point (start c')); [destruct (Qle_bool _ _); lia|].
    lia.
Qed.

(** What the running cluster contains stays in a cluster. *)
Lemma mergeFrom_covers (thr : Q) (rest : list IntRange) (cs ce point : Q) :
  cs <= point -> point <= ce ->
  exists c, In c (mergeFrom thr cs ce rest) /\ covers c point.
Proof.
  revert cs ce. induction rest as [|r rest IH]; intros cs ce H1 H2; simpl.
  - exists (mkIntRange cs ce). split; [now left | split; assumption].
  - destruct (Qle_bool _ _).
    + apply IH; [exact H1|].
      eapply Qle_trans; [exact H2 | apply Q.le_max_l].
    + exists (mkIntRange cs ce). split; [now left | split; assumption].
Qed.

(** The start of every well-formed range is in a cluster. *)
Lemma mergeFrom_covers_start (thr : Q) (rest : list IntRange) (cs ce : Q)
  (r : IntRange) :
  StronglySorted startsLe rest ->
  Forall (fun x => cs <= start x) rest ->
  In r rest -> start r <= end_ r ->
  exists c, In c (mergeFrom thr cs ce rest) /\ covers c (start r).
Proof.
  revert cs ce.
  induction rest as [|r0 rest IH]; intros cs ce Hs Hcs Hin Hwf;
    [destruct Hin|].
  inversion Hs as [|? ? Hs' Hr0]; subst.
  inversion Hcs as [|? ? Hc0 Hcs']; subst.
  simpl. destruct (Qle_bool (start r0 - ce) thr).
  - destruct Hin as [->|Hin].
    + apply mergeFrom_covers; [exact Hc0|].
      eapply Qle_trans; [exact Hwf | apply Q.le_max_r].
    + now apply IH.
  - destruct Hin as [->|Hin].
    + destruct (mergeFrom_covers thr rest (start r) (end_ r) (start r))
        as (c & Hc & Hcov); [apply Qle_refl | exact Hwf |].
      exists c. split; [now right | exact Hcov].
    + destruct (IH (start r0) (end_ r0)) as (c & Hc & Hcov);
        try assumption.
      exists c. split; [now right | exact Hcov].
Qed.

Lemma mergeFrom_starts (thr : Q) (rest : list IntRange) (cs ce : Q) :
  StronglySorted startsLe rest ->
  Forall (fun x => cs <= start x) rest ->
  Forall (fun c => cs <= start c) (mergeFrom thr cs ce rest).
Proof.
  revert cs ce.
  induction rest as [|r0 rest IH]; intros cs ce Hs Hcs; simpl.
  - constructor; [apply Qle_refl | constructor].
  - inversion Hs as [|? ? Hs' Hr0]; subst.
    inversion Hcs as [|? ? Hc0 Hcs']; subst.
    destruct (Qle_bool _ _).
    + now apply IH.
    + constructor; [apply Qle_refl|].
      eapply Forall_impl; [|apply (IH (start r0) (end_ r0) Hs' Hr0)].
      intros a Ha. simpl in Ha. lra.
Qed.

Lemma mergeFrom_sorted (thr : Q) (rest : list IntRange) (cs ce : Q) :
  StronglySorted startsLe rest ->
  Forall (fun x => cs <= start x) rest ->
  StronglySorted startsLe (mergeFrom thr cs ce rest).
Proof.
  revert cs ce.
  induction rest as [|r0 rest IH]; intros cs ce Hs Hcs; simpl.
  - constructor; constructor.
  - inversion Hs as [|? ? Hs' Hr0]; subst.
    inversion Hcs as [|? ? Hc0 Hcs']; subst.
    destruct (Qle_bool _ _).
    + now apply IH.
    + constructor; [now apply IH|].
      eapply Forall_impl;
        [|apply (mergeFrom_starts thr rest (start r0) (end_ r0) Hs' Hr0)].
      intros a Ha. unfold startsLe. simpl in *. lra.
Qed.

(** The clusters are in ascending order of their starts. *)
Lemma make_sorted (ranges : list IntRange) (thr : Q) :
  StronglySorted startsLe (clusters (make ranges thr)).
Proof.
  unfold make. pose proof (sortByStart_sorted ranges) as Hs.
  destruct (sortByStart ranges) as [|r rest]; simpl; [constructor|].
  inversion Hs; subst. now apply mergeFrom_sorted.
Qed.

(** The start of every well-formed range fed in is inside a cluster. *)
Lemma make_covers (ranges : list IntRange) (thr : Q) (r : IntRange) :
  In r ranges -> start r <= end_ r ->
  exists c, In c (clusters (make ranges thr)) /\ covers c (start r).
Proof.
  intros Hin Hwf. unfold make.
  pose proof (sortByStart_sorted ranges) as Hs.
  apply sortByStart_In in Hin.
  destruct (sortByStart ranges) as [|r0 rest]; [destruct Hin|].
  inversion Hs as [|? ? Hs' Hr0]; subst. simpl.
  destruct Hin as [->|Hin].
  - apply mergeFrom_covers; [apply Qle_refl | exact Hwf].
  - now apply mergeFrom_covers_start.
Qed.

(** A point inside a cluster is looked up to a cluster that has it. *)
Lemma indexOfFrom_covers (cs : list IntRange) (i : Z) (point : Q) :
  StronglySorted startsLe cs ->
  (exists c, In c cs /\ covers c point) ->
  exists c,
    nth_error cs (Z.to_nat (indexOfFrom i cs point - i)) = Some c /\
    covers c point.
Proof.
  revert i. induction cs as [|c0 rest IH]; intros i Hs (c & Hin & Hcov);
    [destruct Hin|].
  inversion Hs as [|? ? Hs' Hc0]; subst.
  rewrite Forall_forall in Hc0.
  assert (Hstart : start c0 <= point).
  { destruct Hin as [->|Hin]; [apply Hcov|].
    apply Hc0 in Hin. unfold startsLe in Hin. destruct Hcov. lra. }
  destruct rest as [|c1 rest'].
  - simpl. rewrite Z.sub_diag. simpl. exists c0. split; [reflexivity|].
    destruct Hin as [->|[]]. exact Hcov.
  - change (indexOfFrom i (c0 :: c1 :: rest') point)
      with (if Qle_bool point (end_ c0) then i
            else if Qltb point (start c1)
                 then (if Qle_bool (point - end_ c0) (start c1 - point)
                       then i else (i + 1)%Z)
                 else indexOfFrom (i + 1)%Z (c1 :: rest') point).
    destruct (Qle_bool point (end_ c0)) eqn:E0.
    + apply Qle_bool_iff in E0. rewrite Z.sub_diag. simpl.
      exists c0. split; [reflexivity | split; assumption].
    + assert (Hin' : In c (c1 :: rest')).
      { destruct Hin as [->|Hin]; [|exact Hin].
        destruct Hcov as [_ Hle]. apply Qle_bool_iff in Hle. congruence. }
      destruct (Qltb point (start c1)) eqn:E1.
      * exfalso. apply Qltb_lt in E1.
        inversion Hs' as [|? ? _ Hc1]; subst.
        rewrite Forall_forall in Hc1. destruct Hcov as [Hc _].
        destruct Hin' as [->|Hin']; [lra|].
        apply Hc1 in Hin'. unfold startsLe in Hin'. lra.
      * destruct (IH (i + 1)%Z Hs') as (c' & Hnth & Hcov').
        { exists c. split; assumption. }
        pose proof (indexOfFrom_range (c1 :: rest') (i + 1) point
                      ltac:(discriminate)) as Hr.
        exists c'. split; [|exact Hcov'].
        replace (Z.to_nat (indexOfFrom (i + 1) (c1 :: rest') point - i))
          with (S (Z.to_nat
                     (indexOfFrom (i + 1) (c1 :: rest') point - (i + 1))))
          by lia.
        exact Hnth.
Qed.

(** The lookup of the start of a well-formed range that was fed into the
    construction is the index of a cluster that contains it. *)
Lemma getIndex_covers (ranges : list IntRange) (thr : Q) (r : IntRange) :
  In r ranges -> start r <= end_ r ->
  exists i c,
    getIndex (make ranges thr) (start r) = Some i /\
    nth_error (clusters (make ranges thr)) (Z.to_nat i) = Some c /\
    covers c (start r).
Proof.
  intros Hin Hwf.
  destruct (indexOfFrom_covers (clusters (make ranges thr)) 0 (start r)
              (make_sorted ranges thr) (make_covers ranges thr r Hin Hwf))
    as (c & Hnth & Hcov).
  exists (indexOf (make ranges thr) (start r)), c.
  split; [reflexivity|]. split; [|exact Hcov].
  unfold indexOf. now rewrite Z.sub_0_r in Hnth.
Qed.

(** The modelled set on the intervals of the spec's examples: [[0,10]],
    [[12,20]] and [[50,60]] under threshold 5 make the clusters [[0,20]] and
    [[50,60]]; 15 is in cluster 0, 55 in cluster 1, and 30, in the gap, goes
    to cluster 0, whose boundary is nearer. *)
Example make_merges_close_intervals :
  IntRangeSet.clusters
    (IntRangeSet.make
       [mkIntRange 12 20; mkIntRange 50 60; mkIntRange 0 10] 5) =
  [mkIntRange 0 20; mkIntRange 50 60].
Proof. reflexivity. Qed.

Example getIndex_of_sample_points :
  map (IntRangeSet.getIndex
         (IntRangeSet.make
            [mkIntRange 0 10; mkIntRange 12 20; mkIntRange 50 60] 5))
      [15; 55; 30; -4; 75] =
  [Some 0%Z; Some 1%Z; Some 0%Z; Some 0%Z; Some 1%Z].
Proof. reflexivity. Qed.

End RangeSet.

(** ** Bounds on the least confidence of a cell *)

Lemma minConfidence_bounds (lo : Q) (ws : list Word) :
  lo <= 100 ->
  Forall (fun w => lo <= confidence w /\ confidence w <= 100) ws ->
  lo <= minConfidence ws /\ minConfidence ws <= 100.
Proof.
  intro Hlo. induction ws as [|a ws IH]; intro H.
  - simpl. split; [exact Hlo | apply Qle_refl].
  - inversion H as [|? ? [Ha1 Ha2] Hws]; subst.
    destruct ws as [|b ws]; [simpl; split; assumption|].
    change (minConfidence (a :: b :: ws))
      with (Qmin (confidence a) (minConfidence (b :: ws))).
    destruct (IH Hws) as [I1 I2]. split.
    + apply Q.min_glb; assumption.
    + eapply Qle_trans; [apply Q.le_min_l | exact Ha2].
Qed.

Lemma lineCells_In (getIndex : Q -> option Z) (ws g : list Word) (w : Word) :
  In (Merged g) (lineCells getIndex ws) -> In w g -> In w ws.
Proof.
  intros Hc Hw. rewrite <- (lineCells_words getIndex ws).
  apply in_flat_map. exists (Merged g). split; assumption.
Qed.

(** With every confidence in [[lo, 100]], a threshold of at most [lo] marks
    no cell and a threshold above 100 marks every merged cell. *)
Lemma renderCell_unmarked (getIndex : Q -> option Z)
  (opts : ProcessingOptions) (lo : Q) (ws : list Word) :
  lo <= 100 -> confidenceThreshold opts <= lo ->
  Forall (fun w => lo <= confidence w /\ confidence w <= 100) ws ->
  map (renderCell opts) (lineCells getIndex ws) =
  map plainCell (lineCells getIndex ws).
Proof.
  intros Hlo Hthr Hws. apply map_ext_in. intros [|g] Hin; [reflexivity|].
  simpl.
  assert (Hg : Forall (fun w => lo <= confidence w /\ confidence w <= 100) g).
  { apply Forall_forall. intros w Hw. rewrite Forall_forall in Hws.
    apply Hws. eapply lineCells_In; eassumption. }
  destruct (minConfidence_bounds lo g Hlo Hg) as [H1 _].
  replace (Qltb (minConfidence g) (confidenceThreshold opts)) with false;
    [reflexivity|].
  symmetry. apply Qltb_ge. lra.
Qed.

Lemma renderCell_marked (getIndex : Q -> option Z)
  (opts : ProcessingOptions) (ws : list Word) :
  100 < confidenceThreshold opts ->
  Forall (fun w => 0 <= confidence w /\ confidence w <= 100) ws ->
  map (renderCell opts) (lineCells getIndex ws) =
  map (markedCell opts) (lineCells getIndex ws).
Proof.
  intros Hthr Hws. apply map_ext_in. intros [|g] Hin; [reflexivity|].
  simpl.
  assert (Hg : Forall (fun w => 0 <= confidence w /\ confidence w <= 100) g).
  { apply Forall_forall. intros w Hw. rewrite Forall_forall in Hws.
    apply Hws. eapply lineCells_In; eassumption. }
  destruct (minConfidence_bounds 0 g ltac:(lra) Hg) as [_ H2].
  replace (Qltb (minConfidence g) (confidenceThreshold opts)) with true;
    [reflexivity|].
  symmetry. apply Qltb_lt. lra.
Qed.

(** ** A lookup that always answers column 0 *)

Section SingleColumn.

Variable getIndex : Q -> option Z.
Hypothesis getIndex_0 : forall point, getIndex point = Some 0%Z.

Lemma groupLoop_single (ws : list Word) (g : GroupState) :
  groupColumn g = Some 0%Z ->
  fold_left (groupStep getIndex) ws g =
  {| cells := cells g;
     openWords := openWords g ++ ws;
     groupColumn := Some 0%Z |}.
Proof.
  revert g. induction ws as [|w ws IH]; intros g Hg; cbn [fold_left].
  - rewrite app_nil_r. destruct g; simpl in *. now subst.
  - rewrite IH.
    + unfold groupStep. rewrite getIndex_0, Hg. simpl.
      now rewrite <- app_assoc.
    + unfold groupStep. rewrite getIndex_0, Hg. reflexivity.
Qed.

Lemma lineCells_single (w : Word) (ws : list Word) :
  lineCells getIndex (w :: ws) = [Merged (w :: ws)].
Proof.
  unfold lineCells. cbn [fold_left]. rewrite groupLoop_single.
  - unfold groupStep. rewrite getIndex_0. reflexivity.
  - unfold groupStep. rewrite getIndex_0. reflexivity.
Qed.

(** All the words of a line end up in one cell. *)
Lemma lineRow_single (opts : ProcessingOptions) (ws : list Word) :
  lineRow getIndex opts ws =
  match ws with
  | [] => []
  | _ :: _ => [renderCell opts (Merged ws)]
  end.
Proof.
  destruct ws as [|w ws]; [reflexivity|].
  rewrite lineRow_cells.
  - now rewrite lineCells_single.
  - apply Forall_forall. intros a _. left. rewrite getIndex_0. discriminate.
Qed.

End SingleColumn.

(** ** A lookup that always answers [null] *)

Section NullColumn.

Variable getIndex : Q -> option Z.
Hypothesis getIndex_null : forall point, getIndex point = None.

Lemma groupLoop_null (ws : list Word) (g : GroupState) :
  groupColumn g = None ->
  fold_left (groupStep getIndex) ws g =
  {| cells := cells g;
     openWords := openWords g ++ ws;
     groupColumn := None |}.
Proof.
  revert g. induction ws as [|w ws IH]; intros g Hg; cbn [fold_left].
  - rewrite app_nil_r. destruct g; simpl in *. now subst.
  - rewrite IH.
    + unfold groupStep. rewrite getIndex_null, Hg. simpl.
      now rewrite <- app_assoc.
    + unfold groupStep. rewrite getIndex_null, Hg. reflexivity.
Qed.

(** Were the lookup to answer [null] throughout, as an empty set might, the
    rows would be the same as with column 0 throughout, for confidences of
    at most 100. *)
Lemma lineRow_null (opts : ProcessingOptions) (ws : list Word) :
  Forall (fun w => confidence w <= 100) ws ->
  lineRow getIndex opts ws =
  match ws with
  | [] => []
  | _ :: _ => [renderCell opts (Merged ws)]
  end.
Proof.
  intro Hws. destruct ws as [|w ws]; [reflexivity|].
  rewrite lineRow_cells.
  - unfold lineCells. rewrite groupLoop_null by reflexivity. reflexivity.
  - eapply Forall_impl; [|exact Hws]. intros a Ha. right. exact Ha.
Qed.

End NullColumn.

(** ** The rendering of a table *)

Lemma slice_0_m1_snoc (s : string) (d : ascii) :
  slice_0_m1 (s ++ String d "") = s.
Proof.
  induction s as [|c s IH]; [reflexivity|].
  change ((String c s ++ String d "")%string)
    with (String c (s ++ String d "")%string).
  cbn [slice_0_m1]. rewrite IH.
  destruct s; reflexivity.
Qed.

Lemma cellLoop_eq (delim : string) (r : Row) (txt : string) :
  fold_left (fun t cell => (t ++ cell ++ delim)%string) r txt =
  (txt ++ fold_right (fun cell rest => cell ++ delim ++ rest) "" r)%string.
Proof.
  revert txt. induction r as [|c r IH]; intro txt; cbn [fold_left fold_right].
  - now rewrite append_empty_r.
  - rewrite IH, !append_assoc. reflexivity.
Qed.

Lemma trailing_concat (delim : string) (c : string) (r : Row) :
  fold_right (fun cell rest => cell ++ delim ++ rest)%string "" (c :: r) =
  (String.concat delim (c :: r) ++ delim)%string.
Proof.
  revert c. induction r as [|c' r IH]; intro c.
  - simpl. now rewrite append_empty_r.
  - change (fold_right (fun cell rest => cell ++ delim ++ rest)%string ""
              (c :: c' :: r))
      with (c ++ delim ++
            fold_right (fun cell rest => cell ++ delim ++ rest)%string ""
              (c' :: r))%string.
    rewrite IH.
    change (String.concat delim (c :: c' :: r))
      with (c ++ delim ++ String.concat delim (c' :: r))%string.
    now rewrite !append_assoc.
Qed.

Lemma renderRow_eq (d : ascii) (txt : string) (r : Row) :
  renderRow (String d "") txt r =
  (txt ++ String.concat (String d "") r ++ String (ascii_of_nat 10) "")%string.
Proof.
  unfold renderRow. rewrite cellLoop_eq.
  destruct r as [|c r].
  - simpl. now rewrite append_empty_r.
  - rewrite trailing_concat. cbn [List.length Nat.leb].
    rewrite <- !append_assoc, slice_0_m1_snoc. reflexivity.
Qed.

Lemma renderText_from (d : ascii) (tbl : Table) (txt : string) :
  fold_left (renderRow (String d "")) tbl txt =
  (txt ++ joinedRows (String d "") tbl)%string.
Proof.
  revert txt. induction tbl as [|r tbl IH]; intro txt;
    cbn [fold_left joinedRows fold_right].
  - now rewrite append_empty_r.
  - rewrite IH, renderRow_eq, !append_assoc. reflexivity.
Qed.

(** * The claims *)

(** ** Low-confidence boxes *)

(** C4.  The number of entries of [lowConfidenceBoxes] is the number of
    words of the page, over all its lines, whose confidence is strictly
    below [confidenceThreshold]; it is the same whatever the column lookup
    (hence whatever the merging of words into cells) and whatever the
    marker. *)
Theorem lowConfidenceBoxes_length (C : IntRangeSetClass) (page : Page)
  (opts : ProcessingOptions) :
  List.length (lowConfidenceBoxes (processOcrData C page opts)) =
  List.length
    (filter (fun w => Qltb (confidence w) (confidenceThreshold opts))
            (flat_map words (lines page))) /\
  (forall (C' : IntRangeSetClass) (marker : string),
     List.length (lowConfidenceBoxes (processOcrData C page opts)) =
     List.length
       (lowConfidenceBoxes
          (processOcrData C' page
             {| scale := scale opts;
                delimiter := delimiter opts;
                columnThreshold := columnThreshold opts;
                confidenceThreshold := confidenceThreshold opts;
                lowConfidenceMarker := marker |}))).
Proof.
  split.
  - rewrite processOcrData_boxes, length_map. reflexivity.
  - intros C' marker. rewrite !processOcrData_boxes, !length_map.
    reflexivity.
Qed.

(** C5.  Entry by entry, [lowConfidenceBoxes] is made of the bounding boxes
    of the low-confidence words with each of [x0], [y0], [x1], [y1] divided
    by [scale]. *)
Theorem lowConfidenceBoxes_unscaled (C : IntRangeSetClass) (page : Page)
  (opts : ProcessingOptions) :
  Forall2
    (fun box w =>
       x0 box = x0 (bbox w) / scale opts /\
       y0 box = y0 (bbox w) / scale opts /\
       x1 box = x1 (bbox w) / scale opts /\
       y1 box = y1 (bbox w) / scale opts)
    (lowConfidenceBoxes (processOcrData C page opts))
    (lowConfidenceWords opts (lines page)).
Proof.
  rewrite processOcrData_boxes.
  induction (lowConfidenceWords opts (lines page)) as [|w ws IH]; simpl.
  - constructor.
  - constructor; [repeat split | exact IH].
Qed.

(** Where [scale] is not zero, scaling an entry of the list up again gives
    the word's box back. *)
Lemma unscaleBbox_restores (b : Bbox) (k : Q) :
  ~ k == 0 ->
  x0 (unscaleBbox b k) * k == x0 b /\
  y0 (unscaleBbox b k) * k == y0 b /\
  x1 (unscaleBbox b k) * k == x1 b /\
  y1 (unscaleBbox b k) * k == y1 b.
Proof.
  intro Hk. simpl. repeat split; field; exact Hk.
Qed.

(** C9.  [lowConfidenceBoxes] follows the reading order of the page: its
    i-th entry is the box of the i-th low-confidence word met when the
    lines are gone through in order and, in a line, the words in order. *)
Theorem lowConfidenceBoxes_reading_order (C : IntRangeSetClass) (page : Page)
  (opts : ProcessingOptions) :
  lowConfidenceBoxes (processOcrData C page opts) =
  map (fun w => unscaleBbox (bbox w) (scale opts))
      (filter (isLowConfidence opts) (flat_map words (lines page))) /\
  (forall i : nat,
     nth_error (lowConfidenceBoxes (processOcrData C page opts)) i =
     option_map (fun w => unscaleBbox (bbox w) (scale opts))
       (nth_error
          (filter (isLowConfidence opts) (flat_map words (lines page))) i)).
Proof.
  assert (H := processOcrData_boxes C page opts).
  unfold lowConfidenceWords, pageWords in H.
  split; [exact H|].
  intro i. rewrite H. apply nth_error_map.
Qed.

(** ** Rows *)

(** C7.  A page without lines gives the empty table, a line without words
    gives the empty row, and the table has one row per line of the page, the
    i-th row being the row of the i-th line. *)
Theorem table_rows_follow_lines (C : IntRangeSetClass) (page : Page)
  (opts : ProcessingOptions) :
  table (processOcrData C (mkPage (symbols page) []) opts) = [] /\
  (forall getIndex, lineRow getIndex opts [] = []) /\
  List.length (table (processOcrData C page opts)) =
  List.length (lines page) /\
  (forall i : nat,
     nth_error (table (processOcrData C page opts)) i =
     option_map
       (fun l =>
          lineRow (IntRangeSet_getIndex C (columnRangeSet C page opts)) opts
                  (words l))
       (nth_error (lines page) i)).
Proof.
  split; [reflexivity|]. split; [reflexivity|].
  rewrite processOcrData_table. split.
  - apply length_map.
  - intro i. apply nth_error_map.
Qed.

(** C10.  A line with at least one word gives a row with at least one
    cell, whatever the lookups answer, [null] included: the word loop's body
    always leaves a cell open, so the push after the loop adds a cell. *)
Theorem row_of_line_with_words_nonempty (C : IntRangeSetClass) (page : Page)
  (opts : ProcessingOptions) (i : nat) (l : Line) :
  nth_error (lines page) i = Some l ->
  words l <> [] ->
  (forall getIndex boxes st w,
     cellContents (snd (wordStep getIndex opts (boxes, st) w)) <> None) /\
  (exists r : Row,
     nth_error (table (processOcrData C page opts)) i = Some r /\
     (1 <= List.length r)%nat).
Proof.
  intros Hl Hw. split.
  - intros getIndex boxes st w. apply wordStep_opens.
  - rewrite processOcrData_table.
    exists (lineRow (IntRangeSet_getIndex C (columnRangeSet C page opts))
                    opts (words l)).
    split.
    + rewrite nth_error_map, Hl. reflexivity.
    + unfold lineRow. apply pushOpenCell_length, wordLoop_open.
      right. exact Hw.
Qed.

Lemma row_of_line_with_words_nonempty_witness :
  exists r : Row,
    nth_error (table (processOcrData IntRangeSet.class samplePage DEFAULTS))
              1 = Some r /\
    (1 <= List.length r)%nat.
Proof.
  apply (row_of_line_with_words_nonempty
           IntRangeSet.class samplePage DEFAULTS 1 (mkLine [wordGh])).
  - reflexivity.
  - simpl. discriminate.
Defined.

(** ** Columns *)

(** C1, on the sample line: its words are in columns 0, 0 and 2, the second
    is below the threshold, and the first cell of the row is the joined
    text followed by the marker, not the joined text alone. *)
Lemma columns_0_0_2_first_cell_marked :
  map (fun w => sampleLookup (x0 (bbox w))) [wordAb; wordCd; wordEf] =
  [Some 0%Z; Some 0%Z; Some 2%Z] /\
  lineRow sampleLookup DEFAULTS [wordAb; wordCd; wordEf] =
  ["ab cd (?)"; ""; "ef"] /\
  nth_error (table (processOcrData IntRangeSet.class samplePage DEFAULTS)) 0 =
  Some ["ab cd (?)"; ""; "ef"] /\
  lineRow sampleLookup DEFAULTS [wordAb; wordCd; wordEf] <>
  [(text wordAb ++ " " ++ text wordCd)%string; ""; text wordEf].
Proof.
  split; [reflexivity|]. split; [reflexivity|]. split; [reflexivity|].
  vm_compute. discriminate.
Qed.

(** C1, amended.  When the lookup of a word answers a column [col] other
    than the current one, the open cell, if any, is finalized (marker
    appended iff its confidence is below the threshold) and pushed, then
    [col - currentColumn - 1] empty strings are pushed, none when that is not
    positive, [currentColumn] counting as 0 when it is [null], which it is
    as long as no cell has been opened; the word then opens a new cell.  A
    line whose words are in columns 0, 0 and 2 gives three cells: the two
    first texts joined by a space, the empty string, the third text, the
    first and the last finalized as above. *)
Theorem column_change_pushes_cell_then_blanks
  (getIndex : Q -> option Z) (opts : ProcessingOptions) :
  (forall boxes st word col,
     getIndex (x0 (bbox word)) = Some col ->
     currentColumn st <> Some col ->
     snd (wordStep getIndex opts (boxes, st) word) =
     {| row :=
          pushOpenCell opts st ++
          repeat ""%string
            (Z.to_nat
               (col - match currentColumn st with
                      | None => 0
                      | Some c => c
                      end - 1));
        cellContents := Some (text word);
        cellConfidence := confidence word;
        currentColumn := Some col |}) /\
  (forall boxes ws,
     cellContents
       (snd (wordLoop getIndex opts (boxes, initialRowState) ws)) = None ->
     currentColumn
       (snd (wordLoop getIndex opts (boxes, initialRowState) ws)) = None) /\
  (forall w1 w2 w3,
     getIndex (x0 (bbox w1)) = Some 0%Z ->
     getIndex (x0 (bbox w2)) = Some 0%Z ->
     getIndex (x0 (bbox w3)) = Some 2%Z ->
     lineRow getIndex opts [w1; w2; w3] =
     [ markCell opts (text w1 ++ " " ++ text w2)
                (Qmin (confidence w1) (confidence w2));
       ""%string;
       markCell opts (text w3) (confidence w3) ]).
Proof.
  split; [|split].
  - intros boxes st word col Hcol Hcur. unfold wordStep. rewrite Hcol.
    destruct (column_eqb (Some col) (currentColumn st)) eqn:E.
    + apply column_eqb_eq in E. congruence.
    + cbn [snd]. now rewrite pushBlanks_repeat.
  - intros boxes ws Hnone. destruct ws as [|w ws]; [reflexivity|].
    exfalso. revert Hnone. apply wordLoop_open. right. discriminate.
  - intros w1 w2 w3 H1 H2 H3. unfold lineRow, wordLoop. cbn [fold_left].
    unfold wordStep at 3. rewrite H1. cbn -[wordStep].
    unfold wordStep at 2. rewrite H2. cbn -[wordStep].
    unfold wordStep. rewrite H3. reflexivity.
Qed.

Lemma column_change_pushes_cell_then_blanks_witness :
  lineRow sampleLookup DEFAULTS [wordAb; wordCd; wordEf] =
  [ markCell DEFAULTS (text wordAb ++ " " ++ text wordCd)
             (Qmin (confidence wordAb) (confidence wordCd));
    ""%string;
    markCell DEFAULTS (text wordEf) (confidence wordEf) ].
Proof.
  apply (column_change_pushes_cell_then_blanks sampleLookup DEFAULTS);
    reflexivity.
Defined.



(** Under the same condition, if moreover the symbol is well formed
    ([x0 <= x1]), the cluster at the index the lookup answers contains the
    coordinate. *)
Lemma lookup_of_symbol_coordinate_covers (page : Page)
  (opts : ProcessingOptions) (w : Word) (s : Symbol) :
  In s (symbols page) -> x0 (bbox w) = x0 (symbol_bbox s) ->
  x0 (symbol_bbox s) <= x1 (symbol_bbox s) ->
  exists (i : Z) (c : IntRange),
    IntRangeSet_getIndex IntRangeSet.class
      (columnRangeSet IntRangeSet.class page opts) (x0 (bbox w)) = Some i /\
    nth_error (IntRangeSet.clusters
                 (columnRangeSet IntRangeSet.class page opts))
              (Z.to_nat i) = Some c /\
    covers c (x0 (bbox w)).
Proof.
  intros Hs Hx Hwf. rewrite Hx.
  apply (getIndex_covers (columnRanges page) _
           (mkIntRange (x0 (symbol_bbox s)) (x1 (symbol_bbox s)))).
  - unfold columnRanges.
    apply (in_map (fun symbol =>
                     mkIntRange (x0 (symbol_bbox symbol))
                                (x1 (symbol_bbox symbol)))).
    exact Hs.
  - exact Hwf.
Qed.

(** ** Confidence marking *)

(** C3.  With the confidences of the page's words in [[0, 100]], every row
    is the rendering of the line's cells, each word of the line being merged
    into exactly one cell: the text of a cell of merged words is their texts
    joined, followed by [lowConfidenceMarker], once, exactly when the least
    confidence among them is strictly below [confidenceThreshold].  So a
    threshold of 0 leaves every cell without marker, and a threshold above
    100 puts the marker on every cell of merged words, that is on every cell
    but the blanks of skipped columns. *)
Theorem marker_iff_least_confidence_below_threshold
  (C : IntRangeSetClass) (page : Page) (opts : ProcessingOptions) :
  Forall (fun w => 0 <= confidence w /\ confidence w <= 100)
         (flat_map words (lines page)) ->
  table (processOcrData C page opts) =
  map (fun l =>
         map (renderCell opts)
             (lineCells (IntRangeSet_getIndex C (columnRangeSet C page opts))
                        (words l)))
      (lines page) /\
  (forall l,
     flat_map cellWords
       (lineCells (IntRangeSet_getIndex C (columnRangeSet C page opts))
                  (words l)) = words l) /\
  (confidenceThreshold opts == 0 ->
   table (processOcrData C page opts) =
   map (fun l =>
          map plainCell
              (lineCells (IntRangeSet_getIndex C (columnRangeSet C page opts))
                         (words l)))
       (lines page)) /\
  (100 < confidenceThreshold opts ->
   table (processOcrData C page opts) =
   map (fun l =>
          map (markedCell opts)
              (lineCells (IntRangeSet_getIndex C (columnRangeSet C page opts))
                         (words l)))
       (lines page)).
Proof.
  intro Hconf. rewrite processOcrData_table.
  set (lookup := IntRangeSet_getIndex C (columnRangeSet C page opts)).
  assert (Hline : forall l, In l (lines page) ->
            Forall (fun w => 0 <= confidence w /\ confidence w <= 100)
                   (words l)).
  { intros l Hl. apply Forall_forall. intros w Hw.
    rewrite Forall_forall in Hconf. apply Hconf.
    apply in_flat_map. exists l. split; assumption. }
  assert (Hrow : forall l, In l (lines page) ->
            lineRow lookup opts (words l) =
            map (renderCell opts) (lineCells lookup (words l))).
  { intros l Hl. apply lineRow_cells.
    eapply Forall_impl; [|exact (Hline l Hl)].
    intros w [_ Hw]. right. exact Hw. }
  split; [|split; [|split]].
  - apply map_ext_in. exact Hrow.
  - intro l. apply lineCells_words.
  - intro Hthr. apply map_ext_in. intros l Hl. rewrite (Hrow l Hl).
    apply (renderCell_unmarked lookup opts 0).
    + lra.
    + rewrite Hthr. apply Qle_refl.
    + exact (Hline l Hl).
  - intro Hthr. apply map_ext_in. intros l Hl. rewrite (Hrow l Hl).
    apply renderCell_marked; [exact Hthr | exact (Hline l Hl)].
Qed.

Lemma marker_iff_least_confidence_below_threshold_witness :
  table (processOcrData IntRangeSet.class samplePage DEFAULTS) =
  map (fun l =>
         map (renderCell DEFAULTS)
             (lineCells (IntRangeSet_getIndex IntRangeSet.class
                           (columnRangeSet IntRangeSet.class samplePage
                                           DEFAULTS))
                        (words l)))
      (lines samplePage).
Proof.
  apply (marker_iff_least_confidence_below_threshold
           IntRangeSet.class samplePage DEFAULTS).
  simpl. repeat constructor; discriminate.
Defined.

(** ** A page without symbols *)

(** C6, on the page without symbols whose only line has the one word "cd"
    of confidence 50: with the default options the only cell is the word's
    text followed by the marker, not the word's text. *)
Lemma no_symbols_one_doubtful_word_is_marked :
  symbols bareSymbolsPage = [] /\
  lines bareSymbolsPage = [mkLine [wordCd]] /\
  table (processOcrData IntRangeSet.class bareSymbolsPage DEFAULTS) =
  [["cd (?)"]] /\
  table (processOcrData IntRangeSet.class bareSymbolsPage DEFAULTS) <>
  [[text wordCd]].
Proof.
  split; [reflexivity|]. split; [reflexivity|]. split; [reflexivity|].
  vm_compute. discriminate.
Qed.

(** C6, amended.  For a page without symbols the result is always defined;
    every lookup answers column 0, so each line with words gives a row of
    one cell, the texts of all its words joined and, when their least
    confidence is below the threshold, the marker; a line without words
    gives the empty row.  In particular one line of one word gives one row
    of one cell: the word's text, followed by the marker when the word's
    confidence is below the threshold. *)
Theorem no_symbols_single_column (ls : list Line) (opts : ProcessingOptions) :
  (forall point,
     IntRangeSet_getIndex IntRangeSet.class
       (columnRangeSet IntRangeSet.class (mkPage [] ls) opts) point =
     Some 0%Z) /\
  table (processOcrData IntRangeSet.class (mkPage [] ls) opts) =
  map (fun l =>
         match words l with
         | [] => []
         | _ :: _ => [renderCell opts (Merged (words l))]
         end) ls /\
  (forall w : Word,
     table (processOcrData IntRangeSet.class (mkPage [] [mkLine [w]]) opts) =
     [[ if Qltb (confidence w) (confidenceThreshold opts)
        then (text w ++ lowConfidenceMarker opts)%string
        else text w ]]).
Proof.
  split; [reflexivity|]. split.
  - rewrite processOcrData_table. apply map_ext. intro l.
    apply lineRow_single. reflexivity.
  - intro w. reflexivity.
Qed.

(** ** Rendering *)


(** For a delimiter of one code unit, as are the tab and the comma the
    options form offers, slicing one code unit off does remove the last
    delimiter: the rendered text is, row after row, the cells of the row
    joined by the delimiter, followed by a line break; an empty row is a
    line break alone. *)
Theorem renderText_joined_rows (d : ascii) (tbl : Table) :
  renderText (String d "") tbl = joinedRows (String d "") tbl /\
  renderText (String d "") ([] :: tbl) =
  (String (ascii_of_nat 10) "" ++ renderText (String d "") tbl)%string.
Proof.
  unfold renderText. rewrite !renderText_from. split; reflexivity.
Qed.

(** * Further properties of the code *)

(** ** Rows of lines whose columns never go back *)

Lemma columnsFrom_In (lo : Z) (n : nat) (c : Z) :
  In c (columnsFrom lo n) <-> (lo <= c < lo + Z.of_nat n)%Z.
Proof.
  unfold columnsFrom. rewrite in_map_iff. split.
  - intros (i & <- & Hi). apply in_seq in Hi. lia.
  - intro H. exists (Z.to_nat (c - lo)). split; [lia|].
    apply in_seq. lia.
Qed.

Lemma map_seq_from (f : nat -> Z) (a n : nat) :
  map f (seq a n) = map (fun i => f (a + i)%nat) (seq 0 n).
Proof.
  revert f a. induction n as [|n IH]; intros f a; [reflexivity|].
  cbn [seq map]. rewrite Nat.add_0_r. f_equal.
  rewrite (IH f (S a)), (IH (fun i => f (a + i)%nat) 1%nat).
  apply map_ext. intro i. f_equal. lia.
Qed.

Lemma columnsFrom_app (lo : Z) (n m : nat) :
  columnsFrom lo (n + m) =
  columnsFrom lo n ++ columnsFrom (lo + Z.of_nat n) m.
Proof.
  unfold columnsFrom. rewrite seq_app, map_app. f_equal.
  rewrite map_seq_from. apply map_ext. intro i. lia.
Qed.

Lemma map_all_Blank (f : Z -> Cell) (l : list Z) :
  (forall c, In c l -> f c = Blank) ->
  map f l = repeat Blank (List.length l).
Proof.
  induction l as [|c l IH]; intro H; [reflexivity|].
  simpl. rewrite H by now left. f_equal. apply IH.
  intros c' Hc'. apply H. now right.
Qed.

Lemma columnsFrom_length (lo : Z) (n : nat) :
  List.length (columnsFrom lo n) = n.
Proof.
  unfold columnsFrom. now rewrite length_map, length_seq.
Qed.

Lemma last_cons (k : Z) (ks : list Z) (d : Z) :
  last (k :: ks) d = last ks k.
Proof.
  revert k d. induction ks as [|z ks IH]; intros k d; [reflexivity|].
  change (last (k :: z :: ks) d) with (last (z :: ks) d).
  now rewrite (IH z d), (IH z k).
Qed.

Section Grid.

Variable getIndex : Q -> option Z.

Lemma wordsInColumn_snoc (p : list Word) (a : Word) (c : Z) :
  wordsInColumn getIndex (p ++ [a]) c =
  wordsInColumn getIndex p c ++
  (if column_eqb (getIndex (x0 (bbox a))) (Some c) then [a] else []).
Proof.
  unfold wordsInColumn. rewrite filter_app. reflexivity.
Qed.

Lemma wordsInColumn_other (p : list Word) (a : Word) (ka c : Z) :
  getIndex (x0 (bbox a)) = Some ka -> c <> ka ->
  wordsInColumn getIndex (p ++ [a]) c = wordsInColumn getIndex p c.
Proof.
  intros Ha Hc. rewrite wordsInColumn_snoc, Ha.
  destruct (column_eqb (Some ka) (Some c)) eqn:E.
  - apply column_eqb_eq in E. congruence.
  - apply app_nil_r.
Qed.

Lemma wordsInColumn_above (p : list Word) (kl c : Z) :
  Forall (fun a => exists k, getIndex (x0 (bbox a)) = Some k /\ (k <= kl)%Z)
         p ->
  (kl < c)%Z ->
  wordsInColumn getIndex p c = [].
Proof.
  intros Hp Hc. induction Hp as [|a p (k & Ha & Hk) _ IH]; [reflexivity|].
  unfold wordsInColumn in *. simpl. rewrite Ha.
  destruct (column_eqb (Some k) (Some c)) eqn:E; [|exact IH].
  apply column_eqb_eq in E. injection E as E. lia.
Qed.

Lemma gridCell_other (p : list Word) (a : Word) (ka c : Z) :
  getIndex (x0 (bbox a)) = Some ka -> c <> ka ->
  gridCell getIndex (p ++ [a]) c = gridCell getIndex p c.
Proof.
  intros Ha Hc. unfold gridCell. now rewrite (wordsInColumn_other p a ka c).
Qed.

Lemma gridInv_first (w : Word) (k : Z) :
  getIndex (x0 (bbox w)) = Some k -> (0 <= k)%Z ->
  gridInv getIndex (Z.min k 1) [w] k
          (groupStep getIndex initialGroupState w).
Proof.
  intros Hw Hk. unfold groupStep. rewrite Hw.
  cbn [column_eqb groupColumn initialGroupState].
  assert (Hin : wordsInColumn getIndex [w] k = [w]).
  { unfold wordsInColumn. simpl. rewrite Hw. simpl. now rewrite Z.eqb_refl. }
  unfold gridInv. cbn [groupColumn openWords cells].
  split; [reflexivity|]. split; [now rewrite Hin|].
  split; [rewrite Hin; discriminate|]. split; [|split].
  - unfold closeGroup. cbn [openWords cells initialGroupState app].
    rewrite map_all_Blank.
    + rewrite columnsFrom_length. f_equal. lia.
    + intros c Hc. apply columnsFrom_In in Hc.
      unfold gridCell, wordsInColumn. simpl. rewrite Hw.
      destruct (column_eqb (Some k) (Some c)) eqn:E; [|reflexivity].
      apply column_eqb_eq in E. injection E as E. lia.
  - constructor; [|constructor]. exists k. split; [exact Hw | lia].
  - lia.
Qed.

Lemma gridInv_step (lo : Z) (p : list Word) (kl : Z) (g : GroupState)
  (a : Word) (ka : Z) :
  gridInv getIndex lo p kl g ->
  getIndex (x0 (bbox a)) = Some ka -> (kl <= ka)%Z ->
  gridInv getIndex lo (p ++ [a]) ka (groupStep getIndex g a).
Proof.
  intros (Hcol & Hopen & Hne & Hcells & Hle & Hlo) Ha Hka.
  assert (Hle' : Forall (fun b => exists k,
                           getIndex (x0 (bbox b)) = Some k /\ (k <= ka)%Z)
                        (p ++ [a])).
  { apply Forall_app. split.
    - eapply Forall_impl; [|exact Hle]. intros b (k & Hb & Hk).
      exists k. split; [exact Hb | lia].
    - constructor; [|constructor]. exists ka. split; [exact Ha | lia]. }
  assert (Hkeep : forall c, In c (columnsFrom lo (Z.to_nat (kl - lo))) ->
                            gridCell getIndex (p ++ [a]) c =
                            gridCell getIndex p c).
  { intros c Hc. apply columnsFrom_In in Hc.
    apply (gridCell_other p a ka c Ha). lia. }
  unfold groupStep. rewrite Ha, Hcol.
  destruct (Z.eq_dec ka kl) as [->|Hneq].
  - cbn [column_eqb]. rewrite Z.eqb_refl.
    unfold gridInv. cbn [groupColumn openWords cells].
    split; [reflexivity|]. split; [|split; [|split; [|split]]].
    + rewrite wordsInColumn_snoc, Ha. cbn [column_eqb].
      rewrite Z.eqb_refl. now rewrite Hopen.
    + rewrite wordsInColumn_snoc. intro H. apply app_eq_nil in H.
      destruct H as [H _]. exact (Hne H).
    + rewrite Hcells. symmetry. apply map_ext_in. exact Hkeep.
    + exact Hle'.
    + exact Hlo.
  - cbn [column_eqb].
    destruct (Z.eqb ka kl) eqn:E; [apply Z.eqb_eq in E; congruence|].
    unfold gridInv. cbn [groupColumn openWords cells].
    assert (Habove : wordsInColumn getIndex p ka = []).
    { apply (wordsInColumn_above p kl ka Hle). lia. }
    split; [reflexivity|]. split; [|split; [|split; [|split]]].
    + rewrite wordsInColumn_snoc, Ha, Habove. cbn [column_eqb].
      now rewrite Z.eqb_refl.
    + rewrite wordsInColumn_snoc, Ha, Habove. cbn [column_eqb].
      rewrite Z.eqb_refl. discriminate.
    + replace (Z.to_nat (ka - lo))
        with (Z.to_nat (kl - lo) + (1 + Z.to_nat (ka - kl - 1)))%nat by lia.
      rewrite columnsFrom_app, map_app.
      rewrite (columnsFrom_app _ 1), map_app.
      unfold closeGroup. rewrite Hopen.
      destruct (wordsInColumn getIndex p kl) as [|b bs] eqn:Eo;
        [congruence|].
      rewrite <- app_assoc. f_equal.
      * rewrite Hcells. symmetry. apply map_ext_in. exact Hkeep.
      * f_equal.
        -- cbn [columnsFrom seq map]. f_equal.
           replace (lo + Z.of_nat (Z.to_nat (kl - lo)) + Z.of_nat 0)%Z
             with kl by lia.
           unfold gridCell.
           rewrite (wordsInColumn_other p a ka kl Ha) by lia.
           now rewrite Eo.
        -- rewrite map_all_Blank.
           ++ now rewrite columnsFrom_length.
           ++ intros c Hc. apply columnsFrom_In in Hc.
              rewrite (gridCell_other p a ka c Ha) by lia.
              unfold gridCell.
              rewrite (wordsInColumn_above p kl c Hle) by lia.
              reflexivity.
    + exact Hle'.
    + lia.
Qed.

Lemma gridInv_close (lo : Z) (p : list Word) (kl : Z) (g : GroupState) :
  gridInv getIndex lo p kl g ->
  closeGroup g =
  map (gridCell getIndex p) (columnsFrom lo (Z.to_nat (kl - lo + 1))).
Proof.
  intros (Hcol & Hopen & Hne & Hcells & Hle & Hlo).
  replace (Z.to_nat (kl - lo + 1)) with (Z.to_nat (kl - lo) + 1)%nat by lia.
  rewrite columnsFrom_app, map_app, <- Hcells.
  unfold closeGroup. rewrite Hopen.
  destruct (wordsInColumn getIndex p kl) as [|b bs] eqn:Eo; [congruence|].
  f_equal. cbn [columnsFrom seq map]. f_equal.
  replace (lo + Z.of_nat (Z.to_nat (kl - lo)) + Z.of_nat 0)%Z
    with kl by lia.
  unfold gridCell. now rewrite Eo.
Qed.

Lemma gridInv_loop (lo : Z) (rest : list Word) (ks : list Z)
  (p : list Word) (kl : Z) (g : GroupState) :
  gridInv getIndex lo p kl g ->
  map (fun a => getIndex (x0 (bbox a))) rest = map Some ks ->
  StronglySorted Z.le (kl :: ks) ->
  closeGroup (fold_left (groupStep getIndex) rest g) =
  map (gridCell getIndex (p ++ rest))
      (columnsFrom lo (Z.to_nat (last ks kl - lo + 1))).
Proof.
  revert ks p kl g.
  induction rest as [|a rest IH]; intros ks p kl g Hinv Hkeys Hs.
  - destruct ks; [|discriminate]. rewrite app_nil_r.
    now apply gridInv_close.
  - destruct ks as [|ka ks]; [discriminate|].
    injection Hkeys as Ha Hkeys.
    inversion Hs as [|? ? Hs' Hall]; subst.
    inversion Hall as [|? ? Hka _]; subst.
    cbn [fold_left].
    replace (p ++ a :: rest) with ((p ++ [a]) ++ rest)
      by now rewrite <- app_assoc.
    rewrite last_cons.
    apply (IH ks (p ++ [a]) ka).
    + now apply gridInv_step with (kl := kl).
    + exact Hkeys.
    + exact Hs'.
Qed.

(** The cells of a line whose columns start at [k >= 0] and never go back
    are the slots of the columns from [min k 1] to the last one. *)
Lemma lineCells_grid (w : Word) (ws : list Word) (k : Z) (ks : list Z) :
  map (fun a => getIndex (x0 (bbox a))) (w :: ws) = map Some (k :: ks) ->
  (0 <= k)%Z -> StronglySorted Z.le (k :: ks) ->
  lineCells getIndex (w :: ws) =
  map (gridCell getIndex (w :: ws))
      (columnsFrom (Z.min k 1) (Z.to_nat (last ks k - Z.min k 1 + 1))).
Proof.
  intros Hkeys Hk Hs. injection Hkeys as Hw Hkeys.
  unfold lineCells. cbn [fold_left].
  apply (gridInv_loop (Z.min k 1) ws ks [w] k).
  - now apply gridInv_first.
  - exact Hkeys.
  - exact Hs.
Qed.

End Grid.

Lemma lineRow_grid (getIndex : Q -> option Z) (opts : ProcessingOptions)
  (w : Word) (ws : list Word) (k : Z) (ks : list Z) :
  map (fun a => getIndex (x0 (bbox a))) (w :: ws) = map Some (k :: ks) ->
  (0 <= k)%Z -> StronglySorted Z.le (k :: ks) ->
  lineRow getIndex opts (w :: ws) =
  map (fun c => renderCell opts (gridCell getIndex (w :: ws) c))
      (columnsFrom (Z.min k 1) (Z.to_nat (last ks k - Z.min k 1 + 1))).
Proof.
  intros Hkeys Hk Hs. rewrite lineRow_cells.
  - rewrite (lineCells_grid getIndex w ws k ks Hkeys Hk Hs).
    now rewrite map_map.
  - apply Forall_forall. intros a Ha. left.
    apply (in_map (fun a => getIndex (x0 (bbox a)))) in Ha.
    rewrite Hkeys in Ha. apply in_map_iff in Ha.
    destruct Ha as (z & Hz & _). congruence.
Qed.

Lemma columnsFrom_nth (lo : Z) (n i : nat) :
  (i < n)%nat ->
  nth_error (columnsFrom lo n) i = Some (lo + Z.of_nat i)%Z.
Proof.
  intro Hi. unfold columnsFrom.
  rewrite nth_error_map, nth_error_seq.
  destruct (Nat.ltb_spec i n); [reflexivity | lia].
Qed.

Lemma last_In (z : Z) (ks : list Z) (d : Z) :
  In (last (z :: ks) d) (z :: ks).
Proof.
  revert z. induction ks as [|y ks IH]; intro z; [now left|].
  right. exact (IH y).
Qed.

Lemma last_sorted_ge (k : Z) (ks : list Z) :
  StronglySorted Z.le (k :: ks) -> (k <= last ks k)%Z.
Proof.
  intro Hs. inversion Hs as [|? ? _ Hall]; subst.
  destruct ks as [|z ks]; [simpl; lia|].
  rewrite Forall_forall in Hall. apply Hall. apply last_In.
Qed.

(** X1.  When the words of a line are looked up to columns that start at
    [k >= 0] and never go back, the row [processOcrData] builds for the line
    has one cell per column from [min k 1] to the last column: the cell of a
    column without word is empty, the cell of any other is the joined texts
    of the words of that column, marked when their least confidence is
    below the threshold. *)
Theorem row_of_ordered_columns_is_grid (C : IntRangeSetClass) (page : Page)
  (opts : ProcessingOptions) (i : nat) (w : Word) (ws : list Word)
  (k : Z) (ks : list Z) :
  nth_error (lines page) i = Some (mkLine (w :: ws)) ->
  map (fun a => IntRangeSet_getIndex C (columnRangeSet C page opts)
                  (x0 (bbox a)))
      (w :: ws) = map Some (k :: ks) ->
  (0 <= k)%Z -> StronglySorted Z.le (k :: ks) ->
  nth_error (table (processOcrData C page opts)) i =
  Some (map (fun c =>
               renderCell opts
                 (gridCell (IntRangeSet_getIndex C (columnRangeSet C page opts))
                           (w :: ws) c))
            (columnsFrom (Z.min k 1)
                         (Z.to_nat (last ks k - Z.min k 1 + 1)))).
Proof.
  intros Hl Hkeys Hk Hs.
  rewrite processOcrData_table, nth_error_map, Hl. cbn [option_map words].
  f_equal. now apply lineRow_grid.
Qed.

Lemma row_of_ordered_columns_is_grid_witness :
  nth_error (table (processOcrData IntRangeSet.class samplePage DEFAULTS)) 0 =
  Some (map (fun c =>
               renderCell DEFAULTS
                 (gridCell (IntRangeSet_getIndex IntRangeSet.class
                              (columnRangeSet IntRangeSet.class samplePage
                                              DEFAULTS))
                           [wordAb; wordCd; wordEf] c))
            (columnsFrom (Z.min 0 1)
                         (Z.to_nat (last [0; 2]%Z 0%Z - Z.min 0 1 + 1)))).
Proof.
  apply (row_of_ordered_columns_is_grid
           IntRangeSet.class samplePage DEFAULTS 0 wordAb [wordCd; wordEf]
           0%Z [0; 2]%Z).
  - reflexivity.
  - reflexivity.
  - lia.
  - repeat constructor; lia.
Defined.

(** X2.  For a line whose first word is in column 0 and whose columns never
    go back, the cell of column [c] is at index [c] of the row, up to the
    last column of the line, and the row has one cell more than the number
    of that last column: rows of such lines line up column by column. *)
Theorem row_from_column_0_is_aligned (getIndex : Q -> option Z)
  (opts : ProcessingOptions) (w : Word) (ws : list Word) (ks : list Z)
  (c : Z) :
  map (fun a => getIndex (x0 (bbox a))) (w :: ws) = map Some (0%Z :: ks) ->
  StronglySorted Z.le (0%Z :: ks) ->
  (0 <= c <= last ks 0)%Z ->
  nth_error (lineRow getIndex opts (w :: ws)) (Z.to_nat c) =
  Some (renderCell opts (gridCell getIndex (w :: ws) c)) /\
  Z.of_nat (List.length (lineRow getIndex opts (w :: ws))) =
  (last ks 0 + 1)%Z.
Proof.
  intros Hkeys Hs Hc.
  rewrite (lineRow_grid getIndex opts w ws 0 ks Hkeys ltac:(lia) Hs).
  change (Z.min 0 1) with 0%Z. split.
  - rewrite nth_error_map, columnsFrom_nth by lia.
    cbn [option_map]. do 3 f_equal. lia.
  - rewrite length_map, columnsFrom_length. lia.
Qed.

Lemma row_from_column_0_is_aligned_witness :
  nth_error (lineRow sampleLookup DEFAULTS [wordAb; wordCd; wordEf])
            (Z.to_nat 2) =
  Some (renderCell DEFAULTS
          (gridCell sampleLookup [wordAb; wordCd; wordEf] 2)) /\
  Z.of_nat (List.length
              (lineRow sampleLookup DEFAULTS [wordAb; wordCd; wordEf])) =
  (last [0; 2]%Z 0 + 1)%Z.
Proof.
  apply (row_from_column_0_is_aligned
           sampleLookup DEFAULTS wordAb [wordCd; wordEf] [0; 2]%Z 2%Z).
  - reflexivity.
  - repeat constructor; lia.
  - simpl. lia.
Defined.

(** X3.  For a line whose first word is in a column [k >= 1] and whose
    columns never go back, the cell of column [c >= 1] is at index [c - 1]
    of the row, and the row has as many cells as the number of the last
    column: column 0 gets no cell, so such a row is one cell to the left of
    the row of a line that starts in column 0. *)
Theorem row_from_later_column_is_shifted (getIndex : Q -> option Z)
  (opts : ProcessingOptions) (w : Word) (ws : list Word) (k : Z)
  (ks : list Z) (c : Z) :
  map (fun a => getIndex (x0 (bbox a))) (w :: ws) = map Some (k :: ks) ->
  (1 <= k)%Z -> StronglySorted Z.le (k :: ks) ->
  (1 <= c <= last ks k)%Z ->
  nth_error (lineRow getIndex opts (w :: ws)) (Z.to_nat (c - 1)) =
  Some (renderCell opts (gridCell getIndex (w :: ws) c)) /\
  Z.of_nat (List.length (lineRow getIndex opts (w :: ws))) = last ks k.
Proof.
  intros Hkeys Hk Hs Hc.
  pose proof (last_sorted_ge k ks Hs) as Hlast.
  rewrite (lineRow_grid getIndex opts w ws k ks Hkeys ltac:(lia) Hs).
  replace (Z.min k 1) with 1%Z by lia. split.
  - rewrite nth_error_map, columnsFrom_nth by lia.
    cbn [option_map]. do 3 f_equal. lia.
  - rewrite length_map, columnsFrom_length. lia.
Qed.

Lemma row_from_later_column_is_shifted_witness :
  nth_error (lineRow sampleLookup DEFAULTS [wordGh; wordEf])
            (Z.to_nat (2 - 1)) =
  Some (renderCell DEFAULTS (gridCell sampleLookup [wordGh; wordEf] 2)) /\
  Z.of_nat (List.length (lineRow sampleLookup DEFAULTS [wordGh; wordEf])) =
  last [2]%Z 1%Z.
Proof.
  apply (row_from_later_column_is_shifted
           sampleLookup DEFAULTS wordGh [wordEf] 1%Z [2]%Z 2%Z).
  - reflexivity.
  - lia.
  - repeat constructor; lia.
  - simpl. lia.
Defined.

(** ** Marker and boxes *)

Lemma pushOpenCell_unmarked (opts : ProcessingOptions) (st : RowState) :
  lowConfidenceMarker opts = ""%string ->
  pushOpenCell opts st =
  match cellContents st with
  | Some contents => row st ++ [contents]
  | None => row st
  end.
Proof.
  intro Hm. unfold pushOpenCell, markCell. rewrite Hm.
  destruct (cellContents st) as [c|]; [|reflexivity].
  destruct (Qltb _ _); [now rewrite append_empty_r | reflexivity].
Qed.

Lemma wordLoop_unmarked (getIndex : Q -> option Z)
  (opts opts' : ProcessingOptions) (ws : list Word) (b b' : list Bbox)
  (st : RowState) :
  lowConfidenceMarker opts = ""%string ->
  lowConfidenceMarker opts' = ""%string ->
  snd (wordLoop getIndex opts (b, st) ws) =
  snd (wordLoop getIndex opts' (b', st) ws).
Proof.
  intros Hm Hm'. unfold wordLoop. revert b b' st.
  induction ws as [|w ws IH]; intros b b' st; cbn [fold_left];
    [reflexivity|].
  assert (Hs : snd (wordStep getIndex opts (b, st) w) =
               snd (wordStep getIndex opts' (b', st) w)).
  { unfold wordStep. destruct (column_eqb _ _); [reflexivity|].
    cbn [snd]. now rewrite (pushOpenCell_unmarked opts st Hm),
                 (pushOpenCell_unmarked opts' st Hm'). }
  destruct (wordStep getIndex opts (b, st) w) as [c1 s1].
  destruct (wordStep getIndex opts' (b', st) w) as [c2 s2].
  simpl in Hs. subst s2. apply IH.
Qed.

(** X4.  With an empty [lowConfidenceMarker] the table does not depend on
    [confidenceThreshold]: whatever the threshold, every cell is the joined
    text of its words, and only the list of boxes changes. *)
Theorem empty_marker_table_ignores_threshold (C : IntRangeSetClass)
  (page : Page) (opts : ProcessingOptions) (t : Q) :
  lowConfidenceMarker opts = ""%string ->
  table (processOcrData C page (withThreshold opts t)) =
  table (processOcrData C page opts).
Proof.
  intro Hm. rewrite !processOcrData_table.
  change (columnRangeSet C page (withThreshold opts t))
    with (columnRangeSet C page opts).
  apply map_ext. intro l. unfold lineRow.
  rewrite (wordLoop_unmarked _ (withThreshold opts t) opts (words l)
             [] [] initialRowState Hm Hm).
  now rewrite !pushOpenCell_unmarked.
Qed.

Lemma empty_marker_table_ignores_threshold_witness :
  table (processOcrData IntRangeSet.class samplePage
           (withThreshold unmarkedDefaults 0)) =
  table (processOcrData IntRangeSet.class samplePage unmarkedDefaults).
Proof.
  apply (empty_marker_table_ignores_threshold
           IntRangeSet.class samplePage unmarkedDefaults 0).
  reflexivity.
Defined.

Lemma renderCell_by_words (getIndex : Q -> option Z)
  (opts : ProcessingOptions) (ws : list Word) :
  map (renderCell opts) (lineCells getIndex ws) =
  map (renderCellByWords opts) (lineCells getIndex ws).
Proof.
  apply map_ext_in. intros [|g] Hin; [reflexivity|].
  pose proof (lineCells_nonempty getIndex ws) as Hne.
  rewrite Forall_forall in Hne. specialize (Hne _ Hin).
  simpl. rewrite minConfidence_lt by congruence. reflexivity.
Qed.

Lemma table_by_words (C : IntRangeSetClass) (page : Page)
  (opts : ProcessingOptions) :
  Forall (fun w => confidence w <= 100) (flat_map words (lines page)) ->
  table (processOcrData C page opts) =
  map (fun l =>
         map (renderCellByWords opts)
             (lineCells (IntRangeSet_getIndex C (columnRangeSet C page opts))
                        (words l)))
      (lines page).
Proof.
  intro Hconf. rewrite processOcrData_table. apply map_ext_in.
  intros l Hl. rewrite lineRow_cells.
  - apply renderCell_by_words.
  - apply Forall_forall. intros w Hw. right.
    rewrite Forall_forall in Hconf. apply Hconf.
    apply in_flat_map. exists l. split; assumption.
Qed.

(** X5.  With confidences of at most 100, a cell of the table carries the
    marker exactly when at least one of the words merged into it is of low
    confidence, that is when the box of one of its words is in
    [lowConfidenceBoxes]. *)
Theorem marker_iff_some_word_boxed (C : IntRangeSetClass) (page : Page)
  (opts : ProcessingOptions) :
  Forall (fun w => confidence w <= 100) (flat_map words (lines page)) ->
  table (processOcrData C page opts) =
  map (fun l =>
         map (renderCellByWords opts)
             (lineCells (IntRangeSet_getIndex C (columnRangeSet C page opts))
                        (words l)))
      (lines page).
Proof.
  exact (table_by_words C page opts).
Qed.

Lemma marker_iff_some_word_boxed_witness :
  table (processOcrData IntRangeSet.class samplePage DEFAULTS) =
  map (fun l =>
         map (renderCellByWords DEFAULTS)
             (lineCells (IntRangeSet_getIndex IntRangeSet.class
                           (columnRangeSet IntRangeSet.class samplePage
                                           DEFAULTS))
                        (words l)))
      (lines samplePage).
Proof.
  apply (marker_iff_some_word_boxed IntRangeSet.class samplePage DEFAULTS).
  simpl. repeat constructor; discriminate.
Defined.

(** X6.  With confidences of at most 100, a page for which
    [lowConfidenceBoxes] comes out empty has no marker anywhere in its
    table: every cell is the joined text of its words. *)
Theorem no_box_no_marker (C : IntRangeSetClass) (page : Page)
  (opts : ProcessingOptions) :
  Forall (fun w => confidence w <= 100) (flat_map words (lines page)) ->
  lowConfidenceBoxes (processOcrData C page opts) = [] ->
  table (processOcrData C page opts) =
  map (fun l =>
         map plainCell
             (lineCells (IntRangeSet_getIndex C (columnRangeSet C page opts))
                        (words l)))
      (lines page).
Proof.
  intros Hconf Hboxes.
  rewrite (table_by_words C page opts Hconf).
  rewrite processOcrData_boxes in Hboxes. apply map_eq_nil in Hboxes.
  apply map_ext_in. intros l Hl. apply map_ext_in.
  intros [|g] Hg; [reflexivity|]. simpl.
  replace (existsb (isLowConfidence opts) g) with false; [reflexivity|].
  symmetry. apply not_true_is_false. intro He.
  apply existsb_exists in He. destruct He as (w & Hw & Hlow).
  assert (Hin : In w (lowConfidenceWords opts (lines page))).
  { unfold lowConfidenceWords, pageWords. apply filter_In. split; [|exact Hlow].
    apply in_flat_map. exists l. split; [exact Hl|].
    eapply lineCells_In; eassumption. }
  rewrite Hboxes in Hin. destruct Hin.
Qed.

Lemma no_box_no_marker_witness :
  table (processOcrData IntRangeSet.class confidentPage DEFAULTS) =
  map (fun l =>
         map plainCell
             (lineCells (IntRangeSet_getIndex IntRangeSet.class
                           (columnRangeSet IntRangeSet.class confidentPage
                                           DEFAULTS))
                        (words l)))
      (lines confidentPage).
Proof.
  apply (no_box_no_marker IntRangeSet.class confidentPage DEFAULTS).
  - simpl. repeat constructor; discriminate.
  - reflexivity.
Defined.

(** ** The rendering for any delimiter that is not empty *)

Lemma slice_0_m1_app (s : string) (c : ascii) (d : string) :
  slice_0_m1 (s ++ String c d) = (s ++ slice_0_m1 (String c d))%string.
Proof.
  induction s as [|a s IH]; [reflexivity|].
  change ((String a s ++ String c d)%string)
    with (String a (s ++ String c d)%string).
  cbn [slice_0_m1]. rewrite IH.
  destruct s; reflexivity.
Qed.

Lemma renderRow_text (c : ascii) (d : string) (txt : string) (r : Row) :
  renderRow (String c d) txt r =
  (txt ++ rowText (String c d) r ++ String (ascii_of_nat 10) "")%string.
Proof.
  unfold renderRow. rewrite cellLoop_eq.
  destruct r as [|c0 r].
  - simpl. now rewrite append_empty_r.
  - rewrite trailing_concat. cbn [List.length Nat.leb rowText].
    rewrite <- !append_assoc, slice_0_m1_app, !append_assoc. reflexivity.
Qed.

Lemma renderText_rowTexts_from (c : ascii) (d : string) (tbl : Table)
  (txt : string) :
  fold_left (renderRow (String c d)) tbl txt =
  (txt ++ joinedRowTexts (String c d) tbl)%string.
Proof.
  revert txt. induction tbl as [|r tbl IH]; intro txt;
    cbn [fold_left joinedRowTexts fold_right].
  - now rewrite append_empty_r.
  - rewrite IH, renderRow_text, !append_assoc. reflexivity.
Qed.

Lemma joinedRowTexts_app (delim : string) (t1 t2 : Table) :
  joinedRowTexts delim (t1 ++ t2) =
  (joinedRowTexts delim t1 ++ joinedRowTexts delim t2)%string.
Proof.
  induction t1 as [|r t1 IH]; [reflexivity|].
  cbn [app joinedRowTexts fold_right]. unfold joinedRowTexts in IH.
  now rewrite IH, !append_assoc.
Qed.

(** X7.  For any delimiter that is not empty, the rendered text is, row
    after row, a line break alone for an empty row and otherwise the cells
    joined by the delimiter, then the delimiter less its last code unit
    (nothing for a delimiter of one code unit), then a line break; so the
    text of a table made of two parts is the text of the first followed by
    the text of the second. *)
Theorem renderText_row_texts (c : ascii) (d : string) (t1 t2 : Table) :
  renderText (String c d) t1 = joinedRowTexts (String c d) t1 /\
  renderText (String c d) (t1 ++ t2) =
  (renderText (String c d) t1 ++ renderText (String c d) t2)%string.
Proof.
  unfold renderText. rewrite !renderText_rowTexts_from. split.
  - reflexivity.
  - simpl. apply joinedRowTexts_app.
Qed.

(** ** One line of text per row *)

Lemma countBreaks_app (a b : string) :
  countBreaks (a ++ b) = (countBreaks a + countBreaks b)%nat.
Proof.
  induction a as [|ch a IH]; [reflexivity|].
  simpl. rewrite IH. lia.
Qed.

Lemma countBreaks_slice (s : string) :
  countBreaks s = 0%nat -> countBreaks (slice_0_m1 s) = 0%nat.
Proof.
  induction s as [|ch s IH]; intro H; [reflexivity|].
  destruct s as [|ch' s]; [reflexivity|].
  change (slice_0_m1 (String ch (String ch' s)))
    with (String ch (slice_0_m1 (String ch' s))).
  cbn [countBreaks] in *.
  destruct (Ascii.eqb ch (ascii_of_nat 10)); [discriminate|].
  simpl in *. now apply IH.
Qed.

Lemma countBreaks_concat (delim : string) (r : Row) :
  countBreaks delim = 0%nat ->
  Forall (fun cell => countBreaks cell = 0%nat) r ->
  countBreaks (String.concat delim r) = 0%nat.
Proof.
  intros Hd Hr. induction Hr as [|cell r Hcell Hr IH]; [reflexivity|].
  destruct r as [|cell' r]; [exact Hcell|].
  change (String.concat delim (cell :: cell' :: r))
    with (cell ++ delim ++ String.concat delim (cell' :: r))%string.
  rewrite !countBreaks_app, Hcell, Hd, IH. reflexivity.
Qed.

Lemma countBreaks_rowText (delim : string) (r : Row) :
  countBreaks delim = 0%nat ->
  Forall (fun cell => countBreaks cell = 0%nat) r ->
  countBreaks (rowText delim r) = 0%nat.
Proof.
  intros Hd Hr. destruct r as [|cell r]; [reflexivity|].
  unfold rowText.
  rewrite countBreaks_app, countBreaks_concat, countBreaks_slice;
    auto.
Qed.

Lemma countBreaks_joinedRowTexts (delim : string) (tbl : Table) :
  countBreaks delim = 0%nat ->
  Forall (Forall (fun cell => countBreaks cell = 0%nat)) tbl ->
  countBreaks (joinedRowTexts delim tbl) = List.length tbl.
Proof.
  intros Hd Ht. induction Ht as [|r tbl Hr Ht IH]; [reflexivity|].
  cbn [joinedRowTexts fold_right List.length].
  rewrite !countBreaks_app, (countBreaks_rowText delim r Hd Hr).
  unfold joinedRowTexts in IH. rewrite IH. reflexivity.
Qed.

(** X8.  When neither a cell nor the delimiter, which is not empty, has a
    line break in it, the rendered text has exactly one line break per row
    of the table, empty rows included. *)
Theorem renderText_one_break_per_row (c : ascii) (d : string)
  (tbl : Table) :
  countBreaks (String c d) = 0%nat ->
  Forall (Forall (fun cell => countBreaks cell = 0%nat)) tbl ->
  countBreaks (renderText (String c d) tbl) = List.length tbl.
Proof.
  intros Hd Ht. unfold renderText.
  rewrite renderText_rowTexts_from. simpl append.
  now apply countBreaks_joinedRowTexts.
Qed.

Lemma renderText_one_break_per_row_witness :
  countBreaks (renderText (String "," " ") [["x"; "y"]; []; ["z"]]) =
  List.length [["x"; "y"]; []; ["z"]].
Proof.
  apply (renderText_one_break_per_row "," " " [["x"; "y"]; []; ["z"]]).
  - reflexivity.
  - repeat constructor.
Defined.

(** ** The textarea's text for a page *)

Section NoBreak.

Variable getIndex : Q -> option Z.
Variable opts : ProcessingOptions.
Hypothesis marker_noBreak : countBreaks (lowConfidenceMarker opts) = 0%nat.

Lemma markCell_noBreak (contents : string) (conf : Q) :
  countBreaks contents = 0%nat ->
  countBreaks (markCell opts contents conf) = 0%nat.
Proof.
  intro Hc. unfold markCell. destruct (Qltb _ _); [|exact Hc].
  now rewrite countBreaks_app, Hc, marker_noBreak.
Qed.

Lemma pushOpenCell_noBreak (st : RowState) :
  Forall (fun cell => countBreaks cell = 0%nat) (row st) ->
  (forall contents, cellContents st = Some contents ->
                    countBreaks contents = 0%nat) ->
  Forall (fun cell => countBreaks cell = 0%nat) (pushOpenCell opts st).
Proof.
  intros Hrow Hopen. unfold pushOpenCell.
  destruct (cellContents st) as [contents|]; [|exact Hrow].
  apply Forall_app. split; [exact Hrow|].
  constructor; [|constructor]. apply markCell_noBreak. now apply Hopen.
Qed.

Lemma wordStep_noBreak (boxes : list Bbox) (st : RowState) (w : Word) :
  countBreaks (text w) = 0%nat ->
  Forall (fun cell => countBreaks cell = 0%nat) (row st) ->
  (forall contents, cellContents st = Some contents ->
                    countBreaks contents = 0%nat) ->
  Forall (fun cell => countBreaks cell = 0%nat)
         (row (snd (wordStep getIndex opts (boxes, st) w))) /\
  (forall contents,
     cellContents (snd (wordStep getIndex opts (boxes, st) w)) =
     Some contents ->
     countBreaks contents = 0%nat).
Proof.
  intros Hw Hrow Hopen. unfold wordStep.
  destruct (column_eqb _ _); cbn [snd row cellContents].
  - split; [exact Hrow|]. intros contents Hc. injection Hc as <-.
    destruct (cellContents st) as [c0|]; [|exact Hw].
    rewrite countBreaks_app, (Hopen c0 eq_refl). simpl. exact Hw.
  - split.
    + pose proof (pushOpenCell_noBreak st Hrow Hopen) as Hp.
      destruct (getIndex (x0 (bbox w))); [|exact Hp].
      rewrite pushBlanks_repeat. apply Forall_app. split; [exact Hp|].
      apply Forall_forall. intros cell Hin.
      apply repeat_spec in Hin. now subst cell.
    + intros contents Hc. injection Hc as <-. exact Hw.
Qed.

Lemma lineRow_noBreak (ws : list Word) :
  Forall (fun w => countBreaks (text w) = 0%nat) ws ->
  Forall (fun cell => countBreaks cell = 0%nat) (lineRow getIndex opts ws).
Proof.
  intro Hws. unfold lineRow, wordLoop.
  assert (G : forall (b : list Bbox) (st : RowState),
             Forall (fun cell => countBreaks cell = 0%nat) (row st) ->
             (forall contents, cellContents st = Some contents ->
                               countBreaks contents = 0%nat) ->
             Forall (fun cell => countBreaks cell = 0%nat)
                    (pushOpenCell opts
                       (snd (fold_left (wordStep getIndex opts) ws (b, st))))).
  { induction Hws as [|w ws Hw Hws IH]; intros b st Hrow Hopen;
      cbn [fold_left].
    - now apply pushOpenCell_noBreak.
    - destruct (wordStep_noBreak b st w Hw Hrow Hopen) as [H1 H2].
      destruct (wordStep getIndex opts (b, st) w) as [b' st'].
      now apply IH. }
  apply G; [constructor | discriminate].
Qed.

End NoBreak.

(** X9.  With the tab or the comma as delimiter, and no line break in the
    marker or in the text of any word, the text [AppRequest.start] puts in
    the textarea has exactly one line break per line of the recognized
    page. *)
Theorem startText_one_break_per_line (C : IntRangeSetClass) (data : Page)
  (opts : ProcessingOptions) (btnTabChecked : bool) :
  delimiter opts = delimiterChoice btnTabChecked ->
  countBreaks (lowConfidenceMarker opts) = 0%nat ->
  Forall (fun w => countBreaks (text w) = 0%nat)
         (flat_map words (lines data)) ->
  countBreaks (startText C data opts) = List.length (lines data).
Proof.
  intros Hd Hm Hws. unfold startText, renderText. rewrite Hd.
  assert (Hdelim : exists c d, delimiterChoice btnTabChecked = String c d /\
                               countBreaks (String c d) = 0%nat).
  { destruct btnTabChecked; eexists; eexists; split; reflexivity. }
  destruct Hdelim as (c & d & -> & Hc).
  rewrite renderText_rowTexts_from. simpl append.
  rewrite countBreaks_joinedRowTexts.
  - rewrite processOcrData_table. apply length_map.
  - exact Hc.
  - rewrite processOcrData_table. apply Forall_forall. intros r Hr.
    apply in_map_iff in Hr. destruct Hr as (l & <- & Hl).
    apply lineRow_noBreak; [exact Hm|].
    apply Forall_forall. intros w Hw. rewrite Forall_forall in Hws.
    apply Hws. apply in_flat_map. exists l. split; assumption.
Qed.

Lemma startText_one_break_per_line_witness :
  countBreaks (startText IntRangeSet.class samplePage DEFAULTS) =
  List.length (lines samplePage).
Proof.
  apply (startText_one_break_per_line
           IntRangeSet.class samplePage DEFAULTS true).
  - reflexivity.
  - reflexivity.
  - simpl. repeat constructor.
Defined.

(** ** The size of the longest cell *)

Lemma longest_in_row (r : Row) (acc : nat) :
  let longest :=
    fold_left (fun longest' cell => Nat.max (String.length cell) longest')
              r acc in
  (acc <= longest)%nat /\
  Forall (fun cell => (String.length cell <= longest)%nat) r /\
  (longest = acc \/ exists cell, In cell r /\ longest = String.length cell).
Proof.
  revert acc. induction r as [|cell r IH]; intro acc; cbn [fold_left].
  - repeat split; [lia | constructor | now left].
  - destruct (IH (Nat.max (String.length cell) acc)) as (H1 & H2 & H3).
    cbv zeta in *. split; [lia|]. split.
    + constructor; [lia | exact H2].
    + destruct H3 as [H3|(cell' & Hin & H3)].
      * destruct (Nat.max_spec (String.length cell) acc) as [[_ E]|[_ E]].
        -- left. lia.
        -- right. exists cell. split; [now left | lia].
      * right. exists cell'. split; [now right | exact H3].
Qed.

Lemma longest_in_table (tbl : Table) (acc : nat) :
  let longest :=
    fold_left
      (fun longest r =>
         fold_left (fun longest' cell => Nat.max (String.length cell) longest')
                   r longest)
      tbl acc in
  (acc <= longest)%nat /\
  Forall (Forall (fun cell => (String.length cell <= longest)%nat)) tbl /\
  (longest = acc \/
   exists r cell, In r tbl /\ In cell r /\ longest = String.length cell).
Proof.
  revert acc. induction tbl as [|r tbl IH]; intro acc; cbn [fold_left].
  - repeat split; [lia | constructor | now left].
  - destruct (longest_in_row r acc) as (R1 & R2 & R3).
    cbv zeta in *.
    set (acc' := fold_left
                   (fun longest' cell => Nat.max (String.length cell) longest')
                   r acc) in *.
    destruct (IH acc') as (H1 & H2 & H3). cbv zeta in *.
    split; [lia|]. split.
    + constructor; [|exact H2].
      eapply Forall_impl; [|exact R2]. intros cell Hc. simpl in Hc. lia.
    + destruct H3 as [H3|(r' & cell & Hr & Hc & H3)].
      * destruct R3 as [R3|(cell & Hc & R3)].
        -- left. lia.
        -- right. exists r, cell. split; [now left|]. split; [exact Hc | lia].
      * right. exists r', cell. split; [now right|]. split; assumption.
Qed.

(** X10.  [lengthOfLongestWord], from which the textarea's tab size is
    taken (two more), is the greatest length of a cell of the table if that
    is at least 1, and 1 otherwise: no cell is longer, it is at least 1, and
    it is 1 or the length of some cell of the table. *)
Theorem lengthOfLongestWord_is_max (tbl : Table) :
  (1 <= lengthOfLongestWord tbl)%nat /\
  Forall (Forall (fun cell =>
                    (String.length cell <= lengthOfLongestWord tbl)%nat))
         tbl /\
  (lengthOfLongestWord tbl = 1%nat \/
   exists r cell,
     In r tbl /\ In cell r /\
     lengthOfLongestWord tbl = String.length cell).
Proof.
  exact (longest_in_table tbl 1).
Qed.

(** ** The rectangles of [markBoxes] *)

Lemma markBoxes_strokes_from (boxes : list Bbox) (calls : list StrokeRect) :
  fold_left (fun calls box => calls ++ [strokeRectOf box]) boxes calls =
  calls ++ map strokeRectOf boxes.
Proof.
  revert calls. induction boxes as [|box boxes IH]; intro calls;
    cbn [fold_left map].
  - now rewrite app_nil_r.
  - rewrite IH, <- app_assoc. reflexivity.
Qed.

Lemma markBoxes_strokes_map (boxes : list Bbox) :
  markBoxes_strokes boxes = map strokeRectOf boxes.
Proof.
  unfold markBoxes_strokes. now rewrite markBoxes_strokes_from.
Qed.

Lemma Qdiv_le_compat (a b k : Q) : 0 < k -> a <= b -> a / k <= b / k.
Proof.
  intros Hk Hab. unfold Qdiv. apply Qmult_le_compat_r; [exact Hab|].
  apply Qlt_le_weak, Qinv_lt_0_compat. exact Hk.
Qed.

(** X12.  For a positive [scale] and words whose boxes have [x0 <= x1] and
    [y0 <= y1], [AppRequest.start] has one rectangle drawn per word of low
    confidence of the page, each at least 4 wide and 4 high. *)
Theorem startStrokes_per_low_word (C : IntRangeSetClass) (data : Page)
  (opts : ProcessingOptions) :
  0 < scale opts ->
  Forall (fun w => x0 (bbox w) <= x1 (bbox w) /\ y0 (bbox w) <= y1 (bbox w))
         (flat_map words (lines data)) ->
  List.length (startStrokes C data opts) =
  List.length
    (filter (fun w => Qltb (confidence w) (confidenceThreshold opts))
            (flat_map words (lines data))) /\
  Forall (fun r => 4 <= rect_width r /\ 4 <= rect_height r)
         (startStrokes C data opts).
Proof.
  intros Hk Hwf. unfold startStrokes.
  rewrite markBoxes_strokes_map, processOcrData_boxes.
  unfold lowConfidenceWords, pageWords, isLowConfidence. split.
  - now rewrite !length_map.
  - rewrite map_map. apply Forall_forall. intros r Hr.
    apply in_map_iff in Hr. destruct Hr as (w & <- & Hw).
    apply filter_In in Hw. destruct Hw as [Hw _].
    rewrite Forall_forall in Hwf. destruct (Hwf w Hw) as [Hx Hy].
    pose proof (Qdiv_le_compat _ _ _ Hk Hx) as Hx'.
    pose proof (Qdiv_le_compat _ _ _ Hk Hy) as Hy'.
    unfold strokeRectOf, unscaleBbox.
    cbn [rect_width rect_height x0 x1 y0 y1].
    split; lra.
Qed.

Lemma startStrokes_per_low_word_witness :
  List.length (startStrokes IntRangeSet.class samplePage DEFAULTS) =
  List.length
    (filter (fun w => Qltb (confidence w) (confidenceThreshold DEFAULTS))
            (flat_map words (lines samplePage))) /\
  Forall (fun r => 4 <= rect_width r /\ 4 <= rect_height r)
         (startStrokes IntRangeSet.class samplePage DEFAULTS).
Proof.
  apply (startStrokes_per_low_word IntRangeSet.class samplePage DEFAULTS).
  - reflexivity.
  - simpl. repeat constructor; discriminate.
Defined.

(** ** Lines are processed one by one *)

(** X13.  Nothing is carried over from a line to the next: the table and
    the boxes of a page whose lines are [ls1] followed by [ls2] are those of
    the page with the lines [ls1] followed by those of the page with the
    lines [ls2], the symbols being the same. *)
Theorem processOcrData_lines_app (C : IntRangeSetClass)
  (syms : list Symbol) (ls1 ls2 : list Line) (opts : ProcessingOptions) :
  table (processOcrData C (mkPage syms (ls1 ++ ls2)) opts) =
  table (processOcrData C (mkPage syms ls1) opts) ++
  table (processOcrData C (mkPage syms ls2) opts) /\
  lowConfidenceBoxes (processOcrData C (mkPage syms (ls1 ++ ls2)) opts) =
  lowConfidenceBoxes (processOcrData C (mkPage syms ls1) opts) ++
  lowConfidenceBoxes (processOcrData C (mkPage syms ls2) opts).
Proof.
  rewrite !processOcrData_table, !processOcrData_boxes. cbn [lines]. split.
  - apply map_app.
  - unfold lowConfidenceWords, pageWords.
    now rewrite flat_map_app, filter_app, map_app.
Qed.
